(** * The message relay of the development server

    A shallow embedding of [attachToServer] and [parseMessage]: the relay
    that accepts WebSocket connections, names each one [client#N], reads
    every text frame as a JSON message of protocol version 2 and routes it
    as a broadcast, a request or a response.

    JavaScript values are an inductive type, a thrown exception is a
    completion of its own, and the relay's mutable state ([clients],
    [nextClientId], the sockets and what was written to them and to the
    logger) is threaded through a state-and-exception monad. *)

From Stdlib Require Import ZArith Ascii String List Lia.
From stdpp Require Import base option list strings pretty.

Open Scope string_scope.
Open Scope list_scope.
Set Warnings "-register-all".

(** ** JavaScript values *)

(** The values a decoded message is made of.  [VNum] carries an integer:
    the relay compares one number with [PROTOCOL_VERSION] and copies the
    others. *)
Inductive value : Type :=
| VUndefined
| VNull
| VBool (b : bool)
| VNum (n : Z)
| VStr (s : string)
| VArr (items : list value)
| VObj (props : list (string * value)).

Definition PROTOCOL_VERSION : Z := 2.

(** [typeof v] *)
Definition typeof (v : value) : string :=
  match v with
  | VUndefined => "undefined"
  | VNull => "object"
  | VBool _ => "boolean"
  | VNum _ => "number"
  | VStr _ => "string"
  | VArr _ => "object"
  | VObj _ => "object"
  end.

(** [a === b].  Objects and arrays compare by reference; every comparison
    of the relay has a primitive on one side, and a primitive is never
    identical to an object. *)
Definition strict_equals (a b : value) : bool :=
  match a, b with
  | VUndefined, VUndefined => true
  | VNull, VNull => true
  | VBool x, VBool y => Bool.eqb x y
  | VNum x, VNum y => Z.eqb x y
  | VStr x, VStr y => String.eqb x y
  | _, _ => false
  end.

(** Truthiness, as [if (v)] and [!v] see it. *)
Definition truthy (v : value) : bool :=
  match v with
  | VUndefined | VNull => false
  | VBool b => b
  | VNum n => negb (Z.eqb n 0)
  | VStr s => negb (String.eqb s "")
  | VArr _ | VObj _ => true
  end.

(** Own property [k] of an object literal: the first binding of [k],
    [undefined] when there is none. *)
Fixpoint field (k : string) (props : list (string * value)) : value :=
  match props with
  | [] => VUndefined
  | (k', v) :: rest => if String.eqb k k' then v else field k rest
  end.

(** [o[k] = v] on a plain object: an existing key keeps its place.  (The
    relay only sets identities, [client#N]: never [__proto__], the one name
    that JavaScript treats otherwise.) *)
Fixpoint obj_set (k : string) (v : value) (props : list (string * value))
  : list (string * value) :=
  match props with
  | [] => [(k, v)]
  | (k', v') :: rest =>
      if String.eqb k k' then (k, v) :: rest else (k', v') :: obj_set k v rest
  end.

(** ** Exceptions *)

Record JsError : Type := mkError { err_name : string; err_message : string }.

Definition Error (message : string) : JsError := mkError "Error" message.
Definition TypeError (message : string) : JsError := mkError "TypeError" message.
Definition SyntaxError (message : string) : JsError := mkError "SyntaxError" message.

(** [e.toString()] of [Error.prototype]. *)
Definition toString (e : JsError) : string :=
  if String.eqb (err_message e) "" then err_name e
  else err_name e +:+ ": " +:+ err_message e.

(** How an evaluation ends: with a value, or with a thrown exception. *)
Inductive Completion (A : Type) : Type :=
| Normal (a : A)
| Throw (e : JsError).
Arguments Normal {A} a.
Arguments Throw {A} e.

Definition quote : string := String "034"%char "".

(** [v.k].  Reading a property of [null] or [undefined] throws a
    [TypeError], with the text Node gives it; the names the relay reads
    ([version], [method], [id], [target], [params], [result], [error],
    [requestId], [clientId]) exist on no prototype, so on a primitive or an
    array they read as [undefined]. *)
Definition get (v : value) (k : string) : Completion value :=
  match v with
  | VUndefined =>
      Throw (TypeError ("Cannot read property '" +:+ k +:+ "' of undefined"))
  | VNull => Throw (TypeError ("Cannot read property '" +:+ k +:+ "' of null"))
  | VObj props => Normal (field k props)
  | _ => Normal VUndefined
  end.

(** ** Text frames and JSON *)

(** [ToString(v)], as a template literal applies it. *)
Fixpoint ToString (v : value) : string :=
  match v with
  | VUndefined => "undefined"
  | VNull => "null"
  | VBool true => "true"
  | VBool false => "false"
  | VNum n => pretty n
  | VStr s => s
  | VArr items =>
      (fix join (l : list value) : string :=
         match l with
         | [] => ""
         | [x] => match x with
                  | VUndefined | VNull => ""
                  | _ => ToString x
                  end
         | x :: rest =>
             match x with
             | VUndefined | VNull => ""
             | _ => ToString x
             end +:+ "," +:+ join rest
         end) items
  | VObj _ => "[object Object]"
  end.

(** The properties [JSON.stringify] writes for an object: one whose value
    is [undefined] is left out; [ser] serializes the others. *)
Section keep_defined.
Variable ser : value -> value.

Fixpoint keep_defined (props : list (string * value))
  : list (string * value) :=
  match props with
  | [] => []
  | (k, x) :: rest =>
      match x with
      | VUndefined => keep_defined rest
      | _ => (k, ser x) :: keep_defined rest
      end
  end.
End keep_defined.

(** What [JSON.stringify] writes for [v]; an [undefined] array element
    becomes [null]. *)
Fixpoint serialize (v : value) : value :=
  match v with
  | VArr items =>
      VArr (map (fun x => match x with
                          | VUndefined => VNull
                          | _ => serialize x
                          end) items)
  | VObj props => VObj (keep_defined serialize props)
  | _ => v
  end.

(** The payload of a text frame.  A text that is valid JSON is known by the
    document it denotes, the value [JSON.parse] builds from it; any other
    text is [Malformed]. *)
Inductive Text : Type :=
| Json (doc : value)
| Malformed (raw : string).

Definition JSON_parse (data : Text) : Completion value :=
  match data with
  | Json doc => Normal doc
  | Malformed _ => Throw (SyntaxError "Unexpected token")
  end.

Definition JSON_stringify (v : value) : Text := Json (serialize v).

(** ** The relay's world *)

(** [Map<string, V>]: entries in insertion order. *)
Module JsMap.
Section ops.
Context {V : Type}.

Fixpoint get (k : string) (m : list (string * V)) : option V :=
  match m with
  | [] => None
  | (k', v) :: rest => if String.eqb k k' then Some v else get k rest
  end.

(** [m.set(k, v)]: a key already present keeps its position. *)
Fixpoint set (k : string) (v : V) (m : list (string * V))
  : list (string * V) :=
  match m with
  | [] => [(k, v)]
  | (k', v') :: rest =>
      if String.eqb k k' then (k, v) :: rest else (k', v') :: set k v rest
  end.

(** [m.delete(k)] *)
Fixpoint delete (k : string) (m : list (string * V)) : list (string * V) :=
  match m with
  | [] => []
  | (k', v') :: rest =>
      if String.eqb k k' then delete k rest else (k', v') :: delete k rest
  end.

Definition size (m : list (string * V)) : nat := length m.

Definition keys (m : list (string * V)) : list string := map fst m.
End ops.
End JsMap.

(** A function created by the connection callback, known by the variables
    it captured. *)
Record Closure : Type := mkClosure { env_clientId : string; env_clientWs : nat }.

(** A [WebSocket] object.  [ws_onmessage] holds the message callback or
    [null], [ws_onclose] and [ws_onerror] hold [onCloseHandler].
    [ws_fault] is the state of the transport under the socket: [Some e]
    when [send] throws [e]. *)
Record WebSocket : Type := mkWebSocket {
  ws_fault : option JsError;
  ws_onmessage : option Closure;
  ws_onclose : option Closure;
  ws_onerror : option Closure
}.

(** An entry of [clients]; [ws] is the address of the socket. *)
Record Client : Type := mkClient { ws : nat; url : string }.

Inductive Level : Type := LError | LWarn.

(** The lines the relay hands to the logger, one constructor for each call,
    with the values its text is built from. *)
Inductive LogLine : Type :=
| ExpectedTextGotBinary
| WrongProtocolVersion (version : value)
| FailedToParse (data : Text)
| NotMatchingProtocol
| NoAppsConnected (method : value)
| FailedToSendBroadcast (otherId : string) (e : string)
| HandlingFailed (clientId : string) (error : string) (errorMessage : Text)
| FailedToReply (clientId : string) (error : string) (errorMessage : Text)
    (e : string).

(** What the relay does to the outside: a frame written to a socket, a call
    of [send] that threw, a line given to the logger. *)
Inductive Effect : Type :=
| Sent (to : nat) (data : Text)
| SendThrew (to : nat) (data : Text) (e : JsError)
| Logged (level : Level) (line : LogLine).

Record World : Type := mkWorld {
  clients : list (string * Client);
  nextClientId : nat;
  sockets : list WebSocket;
  trace : list Effect
}.

Definition initial : World := mkWorld [] 0 [] [].

(** ** State and exceptions *)

Definition M (A : Type) : Type := World -> Completion A * World.

Definition ret {A} (a : A) : M A := fun w => (Normal a, w).

Definition bind {A B} (m : M A) (k : A -> M B) : M B :=
  fun w => match m w with
           | (Normal a, w') => k a w'
           | (Throw e, w') => (Throw e, w')
           end.

Definition throw {A} (e : JsError) : M A := fun w => (Throw e, w).

(** [try { body } catch (e) { handler }]: what [body] did before it threw
    stays done. *)
Definition try_catch {A} (body : M A) (handler : JsError -> M A) : M A :=
  fun w => match body w with
           | (Normal a, w') => (Normal a, w')
           | (Throw e, w') => handler e w'
           end.

(** The completion of an expression that touches no state. *)
Definition eval {A} (c : Completion A) : M A := fun w => (c, w).

(** Sequencing inside an expression: the first exception wins. *)
Definition cbind {A B} (c : Completion A) (k : A -> Completion B)
  : Completion B :=
  match c with
  | Normal a => k a
  | Throw e => Throw e
  end.

Declare Scope relay_scope.
Delimit Scope relay_scope with relay.
Notation "'let*' x ':=' m 'in' k" := (bind m (fun x => k))
  (at level 10, x name, m at level 100, k at level 200) : relay_scope.
Notation "m '>>' k" := (bind m (fun _ => k))
  (at level 100, k at level 200, right associativity) : relay_scope.
Notation "'let!' x ':=' c 'in' k" := (cbind c (fun x => k))
  (at level 10, x name, c at level 100, k at level 200) : relay_scope.
Open Scope relay_scope.

(** [for (const x of l) body] *)
Fixpoint for_of {A} (l : list A) (body : A -> M unit) : M unit :=
  match l with
  | [] => ret tt
  | x :: rest => body x >> for_of rest body
  end.

Definition emit (eff : Effect) : M unit :=
  fun w => (Normal tt,
            mkWorld (clients w) (nextClientId w) (sockets w) (trace w ++ [eff])).

Definition logger_error (line : LogLine) : M unit := emit (Logged LError line).
Definition logger_warn (line : LogLine) : M unit := emit (Logged LWarn line).

Definition read_clients : M (list (string * Client)) :=
  fun w => (Normal (clients w), w).

Definition write_clients (c : list (string * Client)) : M unit :=
  fun w => (Normal tt, mkWorld c (nextClientId w) (sockets w) (trace w)).

Definition write_socket (addr : nat) (f : WebSocket -> WebSocket) : M unit :=
  fun w => (Normal tt,
            mkWorld (clients w) (nextClientId w)
              (match sockets w !! addr with
               | Some s => <[addr := f s]> (sockets w)
               | None => sockets w
               end)
              (trace w)).

Definition set_onmessage (h : option Closure) (s : WebSocket) : WebSocket :=
  mkWebSocket (ws_fault s) h (ws_onclose s) (ws_onerror s).

Definition set_onclose (h : Closure) (s : WebSocket) : WebSocket :=
  mkWebSocket (ws_fault s) (ws_onmessage s) (Some h) (ws_onerror s).

Definition set_onerror (h : Closure) (s : WebSocket) : WebSocket :=
  mkWebSocket (ws_fault s) (ws_onmessage s) (ws_onclose s) (Some h).

Definition set_fault (e : JsError) (s : WebSocket) : WebSocket :=
  mkWebSocket (Some e) (ws_onmessage s) (ws_onclose s) (ws_onerror s).

(** [nextClientId++]: the counter starts at 0 and only ever grows by one,
    which a JavaScript number does exactly on every value it can reach in
    the life of a process; it is a natural number here. *)
Definition post_increment : M nat :=
  fun w => (Normal (nextClientId w),
            mkWorld (clients w) (S (nextClientId w)) (sockets w) (trace w)).

(** What [send] throws on the socket at [addr], if anything.  An address
    with no socket behind it does not arise; [send] on it is taken to
    throw. *)
Definition fault_of (w : World) (addr : nat) : option JsError :=
  match sockets w !! addr with
  | Some s => ws_fault s
  | None => Some (Error "not opened")
  end.

(** [ws.send(data)] on the socket at [addr]: the frame goes out, or the call
    throws. *)
Definition ws_send (addr : nat) (data : Text) : M unit :=
  fun w => match fault_of w addr with
           | None => emit (Sent addr data) w
           | Some e => (emit (SendThrew addr data e) >> throw e) w
           end.

(** ** The message codec *)

(** [parseMessage(data, binary)]; [None] is the [undefined] it returns for
    a frame it rejects. *)
Definition parseMessage (data : Text) (binary : value) : M (option value) :=
  if truthy binary then
    logger_error ExpectedTextGotBinary >> ret None
  else
    try_catch
      (let* message := eval (JSON_parse data) in
       let* version := eval (get message "version") in
       if strict_equals version (VNum PROTOCOL_VERSION) then
         ret (Some message)
       else
         logger_error (WrongProtocolVersion version) >> ret None)
      (fun e => logger_error (FailedToParse data) >> ret None).

(** [a && b] *)
Definition and_then (a b : Completion bool) : Completion bool :=
  let! x := a in if x then b else Normal false.

(** [a || b] *)
Definition or_else (a b : Completion bool) : Completion bool :=
  let! x := a in if x then Normal true else b.

Infix "&&&" := and_then (at level 40, left associativity) : relay_scope.
Infix "|||" := or_else (at level 50, left associativity) : relay_scope.

(** [typeof e === t] and [typeof e !== t] *)
Definition typeof_is (e : Completion value) (t : string) : Completion bool :=
  let! v := e in Normal (String.eqb (typeof v) t).

Definition typeof_is_not (e : Completion value) (t : string)
  : Completion bool :=
  let! v := e in Normal (negb (String.eqb (typeof v) t)).

(** [e === undefined] and [e !== undefined] *)
Definition is_undefined (e : Completion value) : Completion bool :=
  let! v := e in Normal (strict_equals v VUndefined).

Definition is_defined (e : Completion value) : Completion bool :=
  let! v := e in Normal (negb (strict_equals v VUndefined)).

(** [v.k1.k2] *)
Definition get2 (v : value) (k1 k2 : string) : Completion value :=
  let! x := get v k1 in get x k2.

Definition isBroadcast (message : value) : Completion bool :=
  typeof_is (get message "method") "string" &&&
  is_undefined (get message "id") &&&
  is_undefined (get message "target").

Definition isRequest (message : value) : Completion bool :=
  typeof_is (get message "method") "string" &&&
  typeof_is (get message "target") "string".

Definition isResponse (message : value) : Completion bool :=
  typeof_is (get message "id") "object" &&&
  typeof_is_not (get2 message "id" "requestId") "undefined" &&&
  typeof_is (get2 message "id" "clientId") "string" &&&
  (is_defined (get message "result") ||| is_defined (get message "error")).

(** ** attachToServer *)

(** [`client#${n}`] *)
Definition client_name (n : nat) : string := "client#" +:+ pretty n.

Section attachToServer.

(** [url.parse(u, true).query]: the query parameters of a request URL,
    as the platform's [url] module decodes them. *)
Variable url_query : string -> value.

(** [getClientWs(clientId)] *)
Definition getClientWs (clientId : value) : M nat :=
  let* cs := read_clients in
  match match clientId with
        | VStr k => JsMap.get k cs
        | _ => None
        end with
  | None =>
      throw (Error ("could not find id " +:+ quote +:+ ToString clientId +:+
                    quote +:+ " while forwarding request"))
  | Some client => ret (ws client)
  end.

(** [otherId !== broadcasterId], where [None] is the [null] the host's
    [broadcast] passes for [broadcasterId]. *)
Definition differs (otherId : string) (broadcasterId : option string)
  : bool :=
  match broadcasterId with
  | None => true
  | Some b => negb (String.eqb otherId b)
  end.

(** [handleSendBroadcast(broadcasterId, message)] *)
Definition handleSendBroadcast (broadcasterId : option string)
    (message : value) : M unit :=
  let* method := eval (get message "method") in
  let* params := eval (get message "params") in
  let forwarded :=
    VObj [("version", VNum PROTOCOL_VERSION);
          ("method", method);
          ("params", params)] in
  let* cs := read_clients in
  (if Nat.eqb (JsMap.size cs) 0 then logger_warn (NoAppsConnected method)
   else ret tt) >>
  for_of cs (fun entry =>
    let otherId := fst entry in
    let other := snd entry in
    if differs otherId broadcasterId then
      try_catch
        (ws_send (ws other) (JSON_stringify forwarded))
        (fun e => logger_error (FailedToSendBroadcast otherId (toString e)))
    else ret tt).

Section connection.

(** The variables of one run of the connection callback, captured by
    the functions it defines. *)
Variables (clientId : string) (clientWs : nat).

Definition defined_or_not (v : value) : value :=
  VStr (if strict_equals v VUndefined then "undefined" else "defined").

(** [handleCaughtError(message, error)]; [error] is the caught
    exception's [toString()]. *)
Definition handleCaughtError (message : value) (error : string) : M unit :=
  let* id := eval (get message "id") in
  let* method := eval (get message "method") in
  let* target := eval (get message "target") in
  let* err := eval (get message "error") in
  let* params := eval (get message "params") in
  let* result := eval (get message "result") in
  let errorMessage :=
    VObj [("id", id);
          ("method", method);
          ("target", target);
          ("error", defined_or_not err);
          ("params", defined_or_not params);
          ("result", defined_or_not result)] in
  if strict_equals id VUndefined then
    logger_error
      (HandlingFailed clientId error (JSON_stringify errorMessage))
  else
    try_catch
      (ws_send clientWs
         (JSON_stringify
            (VObj [("version", VNum PROTOCOL_VERSION);
                   ("error", VStr error);
                   ("id", id)])))
      (fun e =>
         logger_error
           (FailedToReply clientId error (JSON_stringify errorMessage)
              (toString e))).

(** The object [getpeers] builds with [clients.forEach]. *)
Definition peers_of (cs : list (string * Client)) : list (string * value) :=
  fold_left
    (fun peers entry =>
       let otherId := fst entry in
       let otherClient := snd entry in
       if negb (String.eqb clientId otherId) &&
          negb (String.eqb (url otherClient) "")
       then obj_set otherId (url_query (url otherClient)) peers
       else peers)
    cs [].

(** [handleServerRequest(message)] *)
Definition handleServerRequest (message : value) : M unit :=
  let* method := eval (get message "method") in
  let* result :=
    if strict_equals method (VStr "getid") then ret (VStr clientId)
    else if strict_equals method (VStr "getpeers") then
      let* cs := read_clients in ret (VObj (peers_of cs))
    else throw (Error ("unknown method: " +:+ ToString method)) in
  let* id := eval (get message "id") in
  ws_send clientWs
    (JSON_stringify
       (VObj [("version", VNum PROTOCOL_VERSION);
              ("result", result);
              ("id", id)])).

(** [forwardRequest(message)] *)
Definition forwardRequest (message : value) : M unit :=
  let* target := eval (get message "target") in
  let* targetWs := getClientWs target in
  let* method := eval (get message "method") in
  let* params := eval (get message "params") in
  let* id := eval (get message "id") in
  ws_send targetWs
    (JSON_stringify
       (VObj [("version", VNum PROTOCOL_VERSION);
              ("method", method);
              ("params", params);
              ("id",
               if strict_equals id VUndefined then VUndefined
               else VObj [("requestId", id);
                          ("clientId", VStr clientId)])])).

(** [forwardResponse(message)] *)
Definition forwardResponse (message : value) : M unit :=
  let* id := eval (get message "id") in
  if negb (truthy id) then ret tt
  else
    let* requester := eval (get2 message "id" "clientId") in
    let* requesterWs := getClientWs requester in
    let* result := eval (get message "result") in
    let* error := eval (get message "error") in
    let* requestId := eval (get2 message "id" "requestId") in
    ws_send requesterWs
      (JSON_stringify
         (VObj [("version", VNum PROTOCOL_VERSION);
                ("result", result);
                ("error", error);
                ("id", requestId)])).

(** [onCloseHandler()] *)
Definition onCloseHandler : M unit :=
  write_socket clientWs (set_onmessage None) >>
  let* cs := read_clients in
  write_clients (JsMap.delete clientId cs).

(** The [try] block of the message callback: classify and route. *)
Definition route (message : value) : M unit :=
  let* broadcast := eval (isBroadcast message) in
  if broadcast then handleSendBroadcast (Some clientId) message
  else
    let* request := eval (isRequest message) in
    if request then
      let* target := eval (get message "target") in
      if strict_equals target (VStr "server") then
        handleServerRequest message
      else forwardRequest message
    else
      let* response := eval (isResponse message) in
      if response then forwardResponse message
      else throw (Error "Invalid message, did not match the protocol").

(** The message callback after [parseMessage] returned [message]. *)
Definition handle (message : value) : M unit :=
  try_catch (route message)
    (fun e => handleCaughtError message (toString e)).

(** [clientWs.onmessage]: [data] and [binary] are the event's. *)
Definition onmessage (data : Text) (binary : value) : M unit :=
  let* message := parseMessage data binary in
  match message with
  | None => logger_error NotMatchingProtocol
  | Some message => handle message
  end.

End connection.

(** The callback of [wss.on('connection', ...)]: [clientWs] is the new
    socket, [req_url] is [req.url]. *)
Definition connection (clientWs : nat) (req_url : option string) : M unit :=
  match req_url with
  | None => ret tt
  | Some u =>
      if String.eqb u "" then ret tt
      else
        let* n := post_increment in
        let clientId := client_name n in
        let* cs := read_clients in
        write_clients (JsMap.set clientId (mkClient clientWs u) cs) >>
        write_socket clientWs (set_onclose (mkClosure clientId clientWs)) >>
        write_socket clientWs (set_onerror (mkClosure clientId clientWs)) >>
        write_socket clientWs (set_onmessage (Some (mkClosure clientId clientWs)))
  end.

(** What [attachToServer] returns to the host. *)
Definition isDebuggerConnected : bool := true.

Definition broadcast (method : string) (params : value) : M unit :=
  handleSendBroadcast None
    (VObj [("method", VStr method); ("params", params)]).

End attachToServer.

(** ** The event loop *)

(** What can happen to the relay: an upgrade request brings a new socket
    and runs the connection callback; a socket gets a frame, closes or
    fails; the transport under a socket breaks, so that [send] throws from
    then on; the host calls [broadcast]. *)
Inductive Event : Type :=
| Upgrade (req_url : option string)
| MessageEvent (addr : nat) (data : Text) (binary : value)
| CloseEvent (addr : nat)
| ErrorEvent (addr : nat)
| TransportFault (addr : nat) (e : JsError)
| HostBroadcast (method : string) (params : value).

Definition new_socket : M nat :=
  fun w => (Normal (length (sockets w)),
            mkWorld (clients w) (nextClientId w)
              (sockets w ++ [mkWebSocket None None None None]) (trace w)).

Definition read_socket (addr : nat) : M (option WebSocket) :=
  fun w => (Normal (sockets w !! addr), w).

Section loop.

Variable url_query : string -> value.

(** One event, run to completion. *)
Definition run (ev : Event) : M unit :=
  match ev with
  | Upgrade req_url =>
      let* clientWs := new_socket in connection clientWs req_url
  | MessageEvent addr data binary =>
      let* s := read_socket addr in
      match s ≫= ws_onmessage with
      | Some f =>
          onmessage url_query (env_clientId f) (env_clientWs f) data binary
      | None => ret tt
      end
  | CloseEvent addr =>
      let* s := read_socket addr in
      match s ≫= ws_onclose with
      | Some f => onCloseHandler (env_clientId f) (env_clientWs f)
      | None => ret tt
      end
  | ErrorEvent addr =>
      let* s := read_socket addr in
      match s ≫= ws_onerror with
      | Some f => onCloseHandler (env_clientId f) (env_clientWs f)
      | None => ret tt
      end
  | TransportFault addr e => write_socket addr (set_fault e)
  | HostBroadcast method params => broadcast method params
  end.

Definition step (w : World) (ev : Event) : World := snd (run ev w).

Definition run_all (evs : list Event) (w : World) : World :=
  fold_left step evs w.

(** The worlds the relay can be in. *)
Inductive reachable : World -> Prop :=
| reachable_initial : reachable initial
| reachable_step w ev : reachable w -> reachable (step w ev).

End loop.

(** ** Vocabulary of the properties *)

(** [w] with [effs] done to the outside and nothing else changed. *)
Definition with_effects (w : World) (effs : list Effect) : World :=
  mkWorld (clients w) (nextClientId w) (sockets w) (trace w ++ effs).

(** The calls of [send] among some effects, whether the frame went out or
    the call threw: the socket and the frame. *)
Definition send_call (eff : Effect) : option (nat * Text) :=
  match eff with
  | Sent to data => Some (to, data)
  | SendThrew to data _ => Some (to, data)
  | Logged _ _ => None
  end.

Definition send_calls (effs : list Effect) : list (nat * Text) :=
  omap send_call effs.

(** The identity the connection callback gave to a socket: the one its
    [onCloseHandler] captured.  A socket keeps the handler after it closed. *)
Definition identity_of (s : WebSocket) : option string :=
  env_clientId <$> ws_onclose s.

(** The identities given so far, in the order the sockets were accepted. *)
Definition assigned (w : World) : list string := omap identity_of (sockets w).

(** The entries of the registry other than [clientId]'s. *)
Definition others (clientId : option string) (cs : list (string * Client))
  : list (string * Client) :=
  filter (fun entry => differs (fst entry) clientId = true) cs.

(** What one step of the fan-out does for [entry]: the frame goes out, or
    [send] throws and the failure is logged. *)
Definition attempt (w : World) (data : Text) (entry : string * Client)
  : list Effect :=
  match fault_of w (ws (snd entry)) with
  | None => [Sent (ws (snd entry)) data]
  | Some e =>
      [SendThrew (ws (snd entry)) data e;
       Logged LError (FailedToSendBroadcast (fst entry) (toString e))]
  end.

(** The frame of a broadcast of [method] with [params]. *)
Definition broadcast_frame (method params : value) : Text :=
  JSON_stringify
    (VObj [("version", VNum PROTOCOL_VERSION);
           ("method", method);
           ("params", params)]).

(** A value [JSON.parse] can return: no [undefined] anywhere in it. *)
Fixpoint is_json (v : value) : bool :=
  match v with
  | VUndefined => false
  | VArr items => forallb is_json items
  | VObj props => forallb (fun p => is_json (snd p)) props
  | _ => true
  end.

(** The names of the properties of a JSON document. *)
Definition keys_of (data : Text) : list string :=
  match data with
  | Json (VObj props) => map fst props
  | _ => []
  end.

(** What holds of every world the relay can be in. *)
Record invariant (w : World) : Prop := mkInvariant {
  inv_keys : NoDup (JsMap.keys (clients w));
  inv_url : Forall (fun entry => url (snd entry) <> "") (clients w);
  inv_socket : forall id c,
    JsMap.get id (clients w) = Some c ->
    exists s, sockets w !! ws c = Some s /\
              ws_onclose s = Some (mkClosure id (ws c));
  inv_onmessage : forall addr s f,
    sockets w !! addr = Some s -> ws_onmessage s = Some f ->
    ws_onclose s = Some f;
  inv_onerror : forall addr s,
    sockets w !! addr = Some s -> ws_onerror s = ws_onclose s;
  inv_closure : forall addr s f,
    sockets w !! addr = Some s -> ws_onclose s = Some f ->
    env_clientWs f = addr;
  inv_registered : forall addr s f,
    sockets w !! addr = Some s -> ws_onmessage s = Some f ->
    exists c, JsMap.get (env_clientId f) (clients w) = Some c;
  inv_assigned : assigned w = map client_name (seq 0 (nextClientId w))
}.

(** A computation that only acts on the outside: it leaves the registry,
    the counter and the sockets as they are, however it ends. *)
Definition only_effects {A} (m : M A) : Prop :=
  forall w, exists effs, snd (m w) = with_effects w effs.

(** The frame [handleCaughtError] answers with. *)
Definition error_reply (error : string) (id : value) : Text :=
  JSON_stringify
    (VObj [("version", VNum PROTOCOL_VERSION);
           ("error", VStr error);
           ("id", id)]).

(** The text [handleCaughtError] logs about the message it failed on. *)
Definition diagnostic (props : list (string * value)) : Text :=
  JSON_stringify
    (VObj [("id", field "id" props);
           ("method", field "method" props);
           ("target", field "target" props);
           ("error", defined_or_not (field "error" props));
           ("params", defined_or_not (field "params" props));
           ("result", defined_or_not (field "result" props))]).

(** What the receiver of a frame reads in its property [k]. *)
Definition decoded (data : Text) (k : string) : Completion value :=
  let! doc := JSON_parse data in get doc k.


(** ** A sample platform and sample worlds *)

(** [s] up to the first [c], and what follows it. *)
Fixpoint split_at (c : ascii) (s : string) : string * option string :=
  match s with
  | EmptyString => (EmptyString, None)
  | String a rest =>
      if Ascii.eqb a c then (EmptyString, Some rest)
      else let (before, after) := split_at c rest in (String a before, after)
  end.

Fixpoint pieces (fuel : nat) (c : ascii) (s : string) : list string :=
  match fuel with
  | O => []
  | S fuel =>
      match split_at c s with
      | (before, None) => [before]
      | (before, Some after) => before :: pieces fuel c after
      end
  end.

(** A decoder of the plainest query strings, [k=v] pairs joined by [&]
    with nothing escaped: enough of [url.parse] for the sample URLs. *)
Definition plain_query (u : string) : value :=
  match snd (split_at "?"%char u) with
  | None => VObj []
  | Some q =>
      VObj (map (fun kv =>
                   let (k, v) := split_at "="%char kv in
                   (k, VStr (default EmptyString v)))
              (pieces (S (String.length q)) "&"%char q))
  end.

(** A debugger, an app, a request without URL, and a second app. *)
Definition sample_upgrades : list Event :=
  [Upgrade (Some "/message?role=debugger&name=Chrome");
   Upgrade (Some "/message?role=app");
   Upgrade None;
   Upgrade (Some "/message?role=app&name=second")].

Definition sample_world : World := run_all plain_query sample_upgrades initial.


(** The frame [forwardRequest] sends to the target of a request. *)
Definition request_frame (clientId : string) (props : list (string * value))
  : Text :=
  JSON_stringify
    (VObj [("version", VNum PROTOCOL_VERSION);
           ("method", field "method" props);
           ("params", field "params" props);
           ("id",
            if strict_equals (field "id" props) VUndefined then VUndefined
            else VObj [("requestId", field "id" props);
                       ("clientId", VStr clientId)])]).

(** The frame [forwardResponse] sends to the requester. *)
Definition response_frame (props : list (string * value)) (requestId : value)
  : Text :=
  JSON_stringify
    (VObj [("version", VNum PROTOCOL_VERSION);
           ("result", field "result" props);
           ("error", field "error" props);
           ("id", requestId)]).

(** The frame [handleServerRequest] answers with. *)
Definition result_frame (result id : value) : Text :=
  JSON_stringify
    (VObj [("version", VNum PROTOCOL_VERSION);
           ("result", result);
           ("id", id)]).

(** The exception of [getClientWs]. *)
Definition could_not_find (clientId : value) : JsError :=
  Error ("could not find id " +:+ quote +:+ ToString clientId +:+ quote +:+
         " while forwarding request").


(** A request of the debugger to the first app. *)
Definition sample_request : list (string * value) :=
  [("version", VNum 2); ("method", VStr "m"); ("target", VStr "client#1");
   ("id", VStr "r1")].

(** The app's answer to it. *)
Definition sample_response : list (string * value) :=
  [("version", VNum 2); ("result", VNum 42);
   ("id", VObj [("requestId", VStr "r1"); ("clientId", VStr "client#0")])].

(** A request that also looks like a response to the second app. *)
Definition sample_ambiguous : list (string * value) :=
  [("version", VNum 2); ("method", VStr "m"); ("target", VStr "client#1");
   ("id", VObj [("requestId", VStr "r1"); ("clientId", VStr "client#2")]);
   ("result", VNum 42)].

Definition sample_broadcast : list (string * value) :=
  [("version", VNum 2); ("method", VStr "reload"); ("params", VObj [])].

Definition sample_getpeers : list (string * value) :=
  [("version", VNum 2); ("method", VStr "getpeers");
   ("target", VStr "server"); ("id", VStr "p1")].

(** Neither a broadcast, nor a request, nor a response. *)
Definition sample_invalid : list (string * value) :=
  [("version", VNum 2); ("id", VStr "x")].

(** A request without [id]. *)
Definition sample_notification : list (string * value) :=
  [("version", VNum 2); ("method", VStr "m"); ("target", VStr "client#1")].


(** ** The open-stack-frame middleware *)

(** What the middleware does to the outside: it calls [launchEditor], ends
    the response, or passes the request on with [next()]. *)
Inductive HttpEffect : Type :=
| LaunchEditor (file lineNumber : value) (watchFolders : list string)
| ResEnd (body : string)
| Next.

(** [getOpenStackFrameInEditorMiddleware({watchFolders})(req, res, next)]:
    [req_url] is [req.url], [rawBody] is [req.rawBody].  It returns how the
    call ended and what it did before that; nothing catches what
    [JSON.parse] or a property read throws.  [launchEditor], [res.end] and
    [next] are the host's and are taken to return. *)
Definition getOpenStackFrameInEditorMiddleware (watchFolders : list string)
    (req_url : option string) (rawBody : Text)
  : Completion unit * list HttpEffect :=
  if bool_decide (req_url = Some "/open-stack-frame") then
    match (let! frame := JSON_parse rawBody in
           let! file := get frame "file" in
           let! lineNumber := get frame "lineNumber" in
           Normal [LaunchEditor file lineNumber watchFolders; ResEnd "OK"])
    with
    | Normal effs => (Normal tt, effs)
    | Throw e => (Throw e, [])
    end
  else (Normal tt, [Next]).

(** ** Vocabulary of the further properties *)

(** The socket at [addr] belongs to an entry of the registry. *)
Definition registered_socket (w : World) (addr : nat) : Prop :=
  exists id c, (id, c) ∈ clients w /\ ws c = addr.

(** A frame that is a JSON object of the protocol's version. *)
Definition versioned (data : Text) : Prop :=
  exists props,
    data = Json (VObj props) /\ field "version" props = VNum PROTOCOL_VERSION.

(** The socket at [addr] has the message callback of client [id]. *)
Definition listening (w : World) (addr : nat) (id : string) : Prop :=
  exists s, sockets w !! addr = Some s /\
            ws_onmessage s = Some (mkClosure id addr).

(** The socket at [addr] exists and has no message callback. *)
Definition deaf (w : World) (addr : nat) : Prop :=
  exists s, sockets w !! addr = Some s /\ ws_onmessage s = None.

(** A stack frame as the app posts it. *)
Definition sample_frame : Text :=
  Json (VObj [("file", VStr "/app/index.js"); ("lineNumber", VNum 12)]).

(** The app asks the relay for its own identity. *)
Definition sample_getid : list (string * value) :=
  [("version", VNum 2); ("method", VStr "getid"); ("target", VStr "server");
   ("id", VStr "g1")].

(** A request to the relay with a method it does not have. *)
Definition sample_unknown : list (string * value) :=
  [("version", VNum 2); ("method", VStr "ping"); ("target", VStr "server");
   ("id", VStr "u1")].

(** A request to a client that never connected. *)
Definition sample_lost : list (string * value) :=
  [("version", VNum 2); ("method", VStr "m"); ("target", VStr "client#9");
   ("id", VStr "r2")].

(** A response to a requester that is not connected. *)
Definition sample_late : list (string * value) :=
  [("version", VNum 2); ("result", VNum 42);
   ("id", VObj [("requestId", VStr "r1"); ("clientId", VStr "client#9")])].

(** The socket of the first app in the sample world. *)
Definition sample_socket : WebSocket :=
  mkWebSocket None (Some (mkClosure "client#1" 1))
    (Some (mkClosure "client#1" 1)) (Some (mkClosure "client#1" 1)).


(** What [handleCaughtError] does for [error] on a message with the
    properties [props]: a line in the log when the message has no [id], a
    reply to the sender otherwise, and a line in the log if that reply
    cannot be sent. *)
Definition report (w : World) (clientId : string) (clientWs : nat)
    (props : list (string * value)) (error : string) : list Effect :=
  if strict_equals (field "id" props) VUndefined then
    [Logged LError (HandlingFailed clientId error (diagnostic props))]
  else
    match fault_of w clientWs with
    | None => [Sent clientWs (error_reply error (field "id" props))]
    | Some e =>
        [SendThrew clientWs (error_reply error (field "id" props)) e;
         Logged LError
           (FailedToReply clientId error (diagnostic props) (toString e))]
    end.


(** Every call of [send] among [effs] is on [clientWs] or on the socket of
    a registered client, with a frame of the protocol's version. *)
Definition sends_within (w : World) (clientWs : nat) (effs : list Effect)
  : Prop :=
  forall addr data,
    (addr, data) ∈ send_calls effs ->
    (addr = clientWs \/ registered_socket w addr) /\ versioned data.


(** The socket at [addr] exists and was given no handler at all. *)
Definition idle (w : World) (addr : nat) : Prop :=
  exists s, sockets w !! addr = Some s /\ ws_onmessage s = None /\
            ws_onclose s = None /\ ws_onerror s = None.


(** ** Values and the codec *)

Lemma strict_equals_num v n : strict_equals v (VNum n) = true <-> v = VNum n.
Proof.
  destruct v; simpl; split; try discriminate; try congruence.
  - intros H. apply Z.eqb_eq in H. congruence.
  - intros H. injection H as ->. apply Z.eqb_refl.
Qed.

Lemma strict_equals_str v s : strict_equals v (VStr s) = true <-> v = VStr s.
Proof.
  destruct v; simpl; split; try discriminate; try congruence.
  - intros H. apply String.eqb_eq in H. congruence.
  - intros H. injection H as ->. apply String.eqb_refl.
Qed.

Lemma strict_equals_undefined v :
  strict_equals v VUndefined = true <-> v = VUndefined.
Proof. destruct v; simpl; split; congruence. Qed.

Lemma with_effects_nil w : with_effects w [] = w.
Proof. destruct w. unfold with_effects. simpl. by rewrite app_nil_r. Qed.

Lemma with_effects_app w a b :
  with_effects (with_effects w a) b = with_effects w (a ++ b).
Proof. unfold with_effects. simpl. by rewrite app_assoc. Qed.

(** ** JSON documents *)

Lemma value_ind_deep (P : value -> Prop) :
  P VUndefined -> P VNull -> (forall b, P (VBool b)) -> (forall n, P (VNum n)) ->
  (forall s, P (VStr s)) ->
  (forall items, Forall P items -> P (VArr items)) ->
  (forall props, Forall (fun p => P (snd p)) props -> P (VObj props)) ->
  forall v, P v.
Proof.
  intros Hu Hn Hb Hz Hs Ha Ho.
  fix IH 1. intros [ | |b|n|s|items|props].
  - exact Hu.
  - exact Hn.
  - apply Hb.
  - apply Hz.
  - apply Hs.
  - apply Ha.
    exact ((fix all (l : list value) : Forall P l :=
              match l with
              | [] => @List.Forall_nil _ P
              | x :: rest => @List.Forall_cons _ P x rest (IH x) (all rest)
              end) items).
  - apply Ho.
    exact ((fix all (l : list (string * value))
              : Forall (fun p => P (snd p)) l :=
              match l with
              | [] => @List.Forall_nil _ (fun p => P (snd p))
              | p :: rest => @List.Forall_cons _ (fun p => P (snd p)) p rest
                    (IH (snd p)) (all rest)
              end) props).
Qed.

Lemma serialize_json v : is_json v = true -> serialize v = v.
Proof.
  induction v as [ | | | | |items IH|props IH] using value_ind_deep;
    try done.
  - cbn [is_json serialize]. intros Hj. f_equal.
    induction IH as [|x items Hx _ IHitems]; [done|].
    cbn [forallb] in Hj. apply andb_prop in Hj as [Hjx Hj].
    cbn [map]. rewrite IHitems by done. f_equal.
    destruct x; try done. all: by apply Hx.
  - cbn [is_json serialize]. intros Hj. f_equal.
    induction IH as [|[k x] props Hx _ IHprops]; [done|].
    cbn [forallb snd] in Hj. apply andb_prop in Hj as [Hjx Hj].
    cbn [keep_defined]. rewrite IHprops by done. cbn [snd] in Hx.
    destruct x; try done. all: by rewrite (Hx Hjx).
Qed.

Lemma field_json k props :
  is_json (VObj props) = true ->
  field k props = VUndefined \/ is_json (field k props) = true.
Proof.
  cbn [is_json]. induction props as [|[k' x] props IH]; [by left|].
  cbn [forallb snd field]. intros Hj. apply andb_prop in Hj as [Hjx Hj].
  destruct (String.eqb k k'); auto.
Qed.

Lemma serialize_field x : x = VUndefined \/ is_json x = true -> serialize x = x.
Proof. intros [->|H]; [done|by apply serialize_json]. Qed.

Lemma keys_keep_defined ser props k :
  k ∈ map fst (keep_defined ser props) -> k ∈ map fst props.
Proof.
  induction props as [|[k' x] props IH]; [done|].
  cbn [keep_defined map fst].
  destruct x; cbn [map fst]; rewrite ?elem_of_cons; tauto.
Qed.

Lemma field_absent k props : k ∉ map fst props -> field k props = VUndefined.
Proof.
  induction props as [|[k' x] props IH]; [done|].
  cbn [map fst field]. rewrite not_elem_of_cons. intros [Hne Hnotin].
  apply String.eqb_neq in Hne as ->. auto.
Qed.

(** Reading a property of what [JSON.stringify] wrote for an object whose
    keys are distinct. *)
Lemma field_keep_defined ser props k :
  NoDup (map fst props) ->
  field k (keep_defined ser props) =
  if strict_equals (field k props) VUndefined then VUndefined
  else ser (field k props).
Proof.
  induction props as [|[k' x] props IH]; [done|].
  cbn [map fst]. intros Hnd. apply NoDup_cons in Hnd as [Hnotin Hnd].
  specialize (IH Hnd). cbn [field].
  destruct (String.eqb k k') eqn:E.
  - apply String.eqb_eq in E. subst k'.
    assert (field k (keep_defined ser props) = VUndefined) as Habs.
    { apply field_absent. intros Hin. by apply keys_keep_defined in Hin. }
    destruct x; cbn [keep_defined field strict_equals];
      rewrite ?String.eqb_refl; done.
  - destruct x; cbn [keep_defined field]; rewrite ?E; done.
Qed.


Lemma get_version_object message n :
  get message "version" = Normal (VNum n) -> exists props, message = VObj props.
Proof. destruct message; try discriminate. eauto. Qed.


(** ** The registry as a [Map] *)

Section JsMapFacts.

Context {V : Type}.
Implicit Types (m : list (string * V)) (k : string) (v : V).

Lemma get_set_eq k v m : JsMap.get k (JsMap.set k v m) = Some v.
Proof.
  induction m as [|[k' v'] m IH]; simpl.
  - by rewrite String.eqb_refl.
  - destruct (String.eqb k k') eqn:E; simpl; rewrite ?String.eqb_refl, ?E; auto.
Qed.

Lemma get_set_ne k k' v m :
  k <> k' -> JsMap.get k' (JsMap.set k v m) = JsMap.get k' m.
Proof.
  intros Hne. induction m as [|[k0 v0] m IH]; simpl.
  - apply not_eq_sym in Hne. by apply String.eqb_neq in Hne as ->.
  - destruct (String.eqb k k0) eqn:E; simpl.
    + apply String.eqb_eq in E. subst k0.
      apply not_eq_sym in Hne. by apply String.eqb_neq in Hne as ->.
    + by rewrite IH.
Qed.

Lemma get_delete_eq k m : JsMap.get k (JsMap.delete k m) = None.
Proof.
  induction m as [|[k' v'] m IH]; simpl; [done|].
  destruct (String.eqb k k') eqn:E; simpl; rewrite ?E; auto.
Qed.

Lemma get_delete_ne k k' m :
  k <> k' -> JsMap.get k' (JsMap.delete k m) = JsMap.get k' m.
Proof.
  intros Hne. induction m as [|[k0 v0] m IH]; simpl; [done|].
  destruct (String.eqb k k0) eqn:E; simpl.
  - apply String.eqb_eq in E. subst k0.
    apply not_eq_sym in Hne. by apply String.eqb_neq in Hne as ->.
  - by rewrite IH.
Qed.

Lemma get_delete_Some k k' v m :
  JsMap.get k' (JsMap.delete k m) = Some v ->
  k <> k' /\ JsMap.get k' m = Some v.
Proof.
  intros H. destruct (decide (k = k')) as [->|Hne].
  - by rewrite get_delete_eq in H.
  - by rewrite get_delete_ne in H.
Qed.

Lemma get_Some_elem k v m : JsMap.get k m = Some v -> (k, v) ∈ m.
Proof.
  induction m as [|[k' v'] m IH]; simpl; [done|].
  destruct (String.eqb k k') eqn:E.
  - apply String.eqb_eq in E. intros [= ->]. subst. apply list_elem_of_here.
  - intros H. apply list_elem_of_further. auto.
Qed.

Lemma get_None_keys k m : JsMap.get k m = None <-> k ∉ JsMap.keys m.
Proof.
  unfold JsMap.keys. induction m as [|[k' v'] m IH]; simpl.
  - split; [|done]. intros _. apply not_elem_of_nil.
  - rewrite not_elem_of_cons. destruct (String.eqb k k') eqn:E.
    + apply String.eqb_eq in E. split; [done|]. by intros [? _].
    + apply String.eqb_neq in E. rewrite IH. tauto.
Qed.

Lemma elem_get_Some k v m :
  NoDup (JsMap.keys m) -> (k, v) ∈ m -> JsMap.get k m = Some v.
Proof.
  unfold JsMap.keys. induction m as [|[k' v'] m IH]; simpl.
  - intros _ H. by apply elem_of_nil in H.
  - intros Hnd H. apply NoDup_cons in Hnd as [Hnotin Hnd].
    apply elem_of_cons in H as [[= -> ->]|H].
    + by rewrite String.eqb_refl.
    + destruct (String.eqb k k') eqn:E; [|auto].
      apply String.eqb_eq in E. subst k'. exfalso. apply Hnotin.
      apply list_elem_of_fmap. by exists (k, v).
Qed.

Lemma keys_delete k m :
  JsMap.keys (JsMap.delete k m) = filter (fun k' => k' <> k) (JsMap.keys m).
Proof.
  unfold JsMap.keys. induction m as [|[k' v'] m IH]; simpl; [done|].
  rewrite filter_cons. destruct (String.eqb k k') eqn:E.
  - apply String.eqb_eq in E. subst k'. by rewrite decide_False by tauto.
  - apply String.eqb_neq in E. rewrite decide_True by auto. simpl. by f_equal.
Qed.

Lemma NoDup_keys_delete k m :
  NoDup (JsMap.keys m) -> NoDup (JsMap.keys (JsMap.delete k m)).
Proof. intros H. rewrite keys_delete. by apply NoDup_filter. Qed.

Lemma keys_set k v m :
  JsMap.keys (JsMap.set k v m) =
  if decide (k ∈ JsMap.keys m) then JsMap.keys m else JsMap.keys m ++ [k].
Proof.
  unfold JsMap.keys. induction m as [|[k' v'] m IH]; simpl.
  - done.
  - destruct (String.eqb k k') eqn:E; simpl.
    + apply String.eqb_eq in E. subst k'.
      rewrite decide_True; [done|]. apply list_elem_of_here.
    + apply String.eqb_neq in E. rewrite IH.
      destruct (decide (k ∈ map fst m)) as [Hin|Hin].
      * rewrite decide_True; [done|]. by apply list_elem_of_further.
      * rewrite decide_False; [done|]. rewrite not_elem_of_cons. tauto.
Qed.

Lemma NoDup_keys_set k v m :
  NoDup (JsMap.keys m) -> NoDup (JsMap.keys (JsMap.set k v m)).
Proof.
  intros H. rewrite keys_set. case_decide; [done|].
  apply NoDup_app. split; [done|]. split.
  - intros x Hx Hx'. apply list_elem_of_singleton in Hx'. by subst x.
  - apply NoDup_singleton.
Qed.

Lemma Forall_set (P : string * V -> Prop) k v m :
  P (k, v) -> Forall P m -> Forall P (JsMap.set k v m).
Proof.
  intros Hkv. induction 1 as [|[k' v'] m Hx Hm IH]; simpl.
  - by repeat constructor.
  - destruct (String.eqb k k'); constructor; auto.
Qed.

Lemma Forall_delete (P : string * V -> Prop) k m :
  Forall P m -> Forall P (JsMap.delete k m).
Proof.
  induction 1 as [|[k' v'] m Hx Hm IH]; simpl; [done|].
  destruct (String.eqb k k'); auto.
Qed.

Lemma delete_absent k m : k ∉ JsMap.keys m -> JsMap.delete k m = m.
Proof.
  unfold JsMap.keys. induction m as [|[k' v'] m IH]; simpl; [done|].
  rewrite not_elem_of_cons. intros [Hne Hnotin].
  apply String.eqb_neq in Hne as ->. by rewrite IH.
Qed.

Lemma delete_delete k m :
  JsMap.delete k (JsMap.delete k m) = JsMap.delete k m.
Proof.
  apply delete_absent. rewrite keys_delete.
  intros H. apply list_elem_of_filter in H as [H _]. by apply H.
Qed.

End JsMapFacts.


Section properties.

Variable url_query : string -> value.

(** C5.  [parseMessage] never throws, and it returns no message exactly
    when the frame is binary, or its text is not valid JSON, or the
    decoded value has no [version] that is strictly equal to 2.  A
    rejection adds one line to the error log and changes nothing else,
    and the message callback then only logs a second line.  An accepted
    frame is returned as decoded, an object, with no effect, and the
    callback goes on to classify it. *)
Theorem parseMessage_rejects_exactly (data : Text) (binary : value)
    (w : World) :
  exists r w',
    parseMessage data binary w = (Normal r, w') /\
    (r = None <->
     truthy binary = true \/
     (forall doc, JSON_parse data <> Normal doc) \/
     (exists doc, JSON_parse data = Normal doc /\
                  get doc "version" <> Normal (VNum PROTOCOL_VERSION))) /\
    (r = None ->
     exists line,
       w' = with_effects w [Logged LError line] /\
       forall clientId clientWs,
         onmessage url_query clientId clientWs data binary w =
         (Normal tt,
          with_effects w [Logged LError line;
                          Logged LError NotMatchingProtocol])) /\
    (forall message,
       r = Some message ->
       truthy binary = false /\
       JSON_parse data = Normal message /\
       get message "version" = Normal (VNum PROTOCOL_VERSION) /\
       (exists props, message = VObj props) /\
       w' = w /\
       forall clientId clientWs,
         onmessage url_query clientId clientWs data binary w =
         handle url_query clientId clientWs message w).
Proof.
  assert (Hlog : forall line clientId clientWs,
    (let* message := (logger_error line >> ret None) in
     match message with
     | None => logger_error NotMatchingProtocol
     | Some message => handle url_query clientId clientWs message
     end) w =
    (Normal tt,
     with_effects w [Logged LError line; Logged LError NotMatchingProtocol])).
  { intros. unfold bind, logger_error, emit, ret, with_effects. simpl.
    by rewrite <- app_assoc. }
  unfold onmessage, parseMessage.
  destruct (truthy binary) eqn:Hbin.
  { exists None, (with_effects w [Logged LError ExpectedTextGotBinary]).
    split; [done|]. split; [|split].
    - split; auto.
    - intros _. exists ExpectedTextGotBinary. split; [done|]. apply Hlog.
    - discriminate. }
  destruct data as [doc|raw].
  2:{ exists None,
        (with_effects w [Logged LError (FailedToParse (Malformed raw))]).
      split; [done|]. split; [|split].
      - split; [|done]. intros _. right. left. intros doc. discriminate.
      - intros _. eexists. split; [done|]. apply Hlog.
      - discriminate. }
  unfold try_catch, bind, eval. simpl.
  destruct (get doc "version") as [version|e] eqn:Hget.
  2:{ exists None, (with_effects w [Logged LError (FailedToParse (Json doc))]).
      split; [done|]. split; [|split].
      - split; [|done]. intros _. right. right. exists doc.
        split; [done|]. rewrite Hget. discriminate.
      - intros _. eexists. split; [done|]. intros.
        unfold bind, logger_error, emit, ret, with_effects. simpl.
        by rewrite <- app_assoc.
      - discriminate. }
  destruct (strict_equals version (VNum PROTOCOL_VERSION)) eqn:Hv.
  - apply strict_equals_num in Hv. subst version.
    exists (Some doc), w.
    split; [done|]. split; [|split].
    + split; [discriminate|].
      intros [?|[H|(doc' & H1 & H2)]]; [discriminate| |].
      * by destruct (H doc).
      * simpl in H1. injection H1 as <-. by rewrite Hget in H2.
    + discriminate.
    + intros message H. injection H as <-.
      split; [done|]. split; [done|]. split; [done|].
      split; [by apply (get_version_object _ PROTOCOL_VERSION)|done].
  - exists None,
      (with_effects w [Logged LError (WrongProtocolVersion version)]).
    split; [done|]. split; [|split].
    + split; [|done]. intros _. right. right. exists doc.
      split; [done|]. rewrite Hget.
      intros H. injection H as ->. simpl in Hv. discriminate.
    + intros _. eexists. split; [done|]. intros.
      unfold bind, logger_error, emit, ret, with_effects. simpl.
      by rewrite <- app_assoc.
    + discriminate.
Qed.

(** A text frame of version 2 that arrives on a listening socket is handed
    to [handle], with the identity and the socket the callback captured. *)
Lemma message_event_is_handled w addr s clientId clientWs props binary :
  sockets w !! addr = Some s ->
  ws_onmessage s = Some (mkClosure clientId clientWs) ->
  truthy binary = false ->
  field "version" props = VNum PROTOCOL_VERSION ->
  run url_query (MessageEvent addr (Json (VObj props)) binary) w =
  handle url_query clientId clientWs (VObj props) w.
Proof.
  intros Hl Hmsg Hbin Hversion.
  unfold run, bind, read_socket. rewrite Hl. cbn [mbind option_bind].
  rewrite Hmsg. cbn [env_clientId env_clientWs].
  unfold onmessage, parseMessage, bind, try_catch, eval.
  rewrite Hbin. cbn [JSON_parse get]. rewrite Hversion. done.
Qed.


(** ** Computations that only act on the outside *)

Lemma only_effects_ret {A} (a : A) : only_effects (ret a).
Proof. intros w. exists []. simpl. by rewrite with_effects_nil. Qed.

Lemma only_effects_throw {A} e : only_effects (@throw A e).
Proof. intros w. exists []. simpl. by rewrite with_effects_nil. Qed.

Lemma only_effects_eval {A} (c : Completion A) : only_effects (eval c).
Proof. intros w. exists []. simpl. by rewrite with_effects_nil. Qed.

Lemma only_effects_emit eff : only_effects (emit eff).
Proof. intros w. by exists [eff]. Qed.

Lemma only_effects_read_clients : only_effects read_clients.
Proof. intros w. exists []. simpl. by rewrite with_effects_nil. Qed.

Lemma only_effects_bind {A B} (m : M A) (k : A -> M B) :
  only_effects m -> (forall a, only_effects (k a)) -> only_effects (bind m k).
Proof.
  intros Hm Hk w. unfold bind. destruct (Hm w) as [effs Hw].
  destruct (m w) as [[a|e] w1]; simpl in Hw; subst w1.
  - destruct (Hk a (with_effects w effs)) as [effs' Hw'].
    exists (effs ++ effs'). by rewrite Hw', with_effects_app.
  - by exists effs.
Qed.

Lemma only_effects_try_catch {A} (body : M A) (handler : JsError -> M A) :
  only_effects body -> (forall e, only_effects (handler e)) ->
  only_effects (try_catch body handler).
Proof.
  intros Hm Hk w. unfold try_catch. destruct (Hm w) as [effs Hw].
  destruct (body w) as [[a|e] w1]; simpl in Hw; subst w1.
  - by exists effs.
  - destruct (Hk e (with_effects w effs)) as [effs' Hw'].
    exists (effs ++ effs'). by rewrite Hw', with_effects_app.
Qed.

Lemma fault_of_with_effects w effs addr :
  fault_of (with_effects w effs) addr = fault_of w addr.
Proof. done. Qed.

Lemma only_effects_ws_send addr data : only_effects (ws_send addr data).
Proof.
  intros w. unfold ws_send. destruct (fault_of w addr).
  - by exists [SendThrew addr data j].
  - by exists [Sent addr data].
Qed.

Lemma only_effects_for_of {A} (l : list A) (body : A -> M unit) :
  (forall x, only_effects (body x)) -> only_effects (for_of l body).
Proof.
  intros Hbody. induction l as [|x l IH]; simpl.
  - apply only_effects_ret.
  - apply only_effects_bind; auto.
Qed.

(** Walks through a computation, one construct at a time. *)
Ltac effects :=
  repeat first
    [ progress (intros)
    | progress (cbv zeta; unfold logger_error, logger_warn)
    | apply only_effects_bind
    | apply only_effects_try_catch
    | apply only_effects_for_of
    | apply only_effects_ret
    | apply only_effects_throw
    | apply only_effects_eval
    | apply only_effects_emit
    | apply only_effects_read_clients
    | apply only_effects_ws_send
    | match goal with
      | |- only_effects (if ?b then _ else _) => destruct b
      | |- only_effects (match ?x with _ => _ end) => destruct x
      end ].

Lemma only_effects_getClientWs clientId : only_effects (getClientWs clientId).
Proof. unfold getClientWs. effects. Qed.

Lemma only_effects_handleSendBroadcast broadcasterId message :
  only_effects (handleSendBroadcast broadcasterId message).
Proof. unfold handleSendBroadcast, logger_warn, logger_error. effects. Qed.

Lemma only_effects_handleCaughtError clientId clientWs message error :
  only_effects (handleCaughtError clientId clientWs message error).
Proof. unfold handleCaughtError, logger_error. effects. Qed.

Lemma only_effects_handleServerRequest clientId clientWs message :
  only_effects (handleServerRequest url_query clientId clientWs message).
Proof. unfold handleServerRequest. effects. Qed.

Lemma only_effects_forwardRequest clientId message :
  only_effects (forwardRequest clientId message).
Proof.
  unfold forwardRequest. effects; try apply only_effects_getClientWs; effects.
Qed.

Lemma only_effects_forwardResponse message :
  only_effects (forwardResponse message).
Proof.
  unfold forwardResponse. effects; try apply only_effects_getClientWs; effects.
Qed.

Lemma only_effects_route clientId clientWs message :
  only_effects (route url_query clientId clientWs message).
Proof.
  unfold route. effects;
    auto using only_effects_handleSendBroadcast,
      only_effects_handleServerRequest, only_effects_forwardRequest,
      only_effects_forwardResponse.
Qed.

Lemma only_effects_handle clientId clientWs message :
  only_effects (handle url_query clientId clientWs message).
Proof.
  unfold handle. apply only_effects_try_catch.
  - apply only_effects_route.
  - intros. apply only_effects_handleCaughtError.
Qed.


(** ** Sockets *)

Lemma lookup_snoc {A} (l : list A) (x : A) : (l ++ [x]) !! length l = Some x.
Proof. induction l; simpl; auto. Qed.

Lemma insert_snoc {A} (l : list A) (x y : A) :
  <[length l := y]> (l ++ [x]) = l ++ [y].
Proof. induction l; simpl; [done|]. by f_equal. Qed.

Lemma omap_insert_same {A B} (g : A -> option B) (f : A -> A) (l : list A)
    (i : nat) (x : A) :
  l !! i = Some x -> g (f x) = g x -> omap g (<[i := f x]> l) = omap g l.
Proof.
  revert i. induction l as [|y l IH]; intros [|i]; simpl; try done.
  - intros [= ->] ->. done.
  - intros Hi Hg. specialize (IH i Hi Hg). unfold omap in IH.
    by rewrite IH.
Qed.

Lemma sockets_write_socket w addr f a :
  sockets (snd (write_socket addr f w)) !! a =
  if decide (a = addr) then f <$> sockets w !! a else sockets w !! a.
Proof.
  unfold write_socket. simpl.
  destruct (sockets w !! addr) as [s|] eqn:E; case_decide; subst; try done.
  - rewrite E. simpl. apply list_lookup_insert_eq.
    by apply lookup_lt_Some in E.
  - by apply list_lookup_insert_ne.
  - by rewrite E.
Qed.

Lemma assigned_write_socket w addr f :
  (forall s, ws_onclose (f s) = ws_onclose s) ->
  assigned (snd (write_socket addr f w)) = assigned w.
Proof.
  intros Hf. unfold assigned, write_socket. simpl.
  destruct (sockets w !! addr) as [s|] eqn:E; [|done].
  apply omap_insert_same; [done|]. unfold identity_of. by rewrite Hf.
Qed.

(** ** The invariant *)

Lemma client_name_inj a b : client_name a = client_name b -> a = b.
Proof.
  unfold client_name. cbv [String.append]. intros H. injection H as H.
  by apply (inj pretty) in H.
Qed.

Lemma omap_NoDup_lookup {A B} (g : A -> option B) (l : list A) i j x y v :
  NoDup (omap g l) -> l !! i = Some x -> l !! j = Some y ->
  g x = Some v -> g y = Some v -> i = j.
Proof.
  revert i j. induction l as [|z l IH]; intros i j Hnd Hi Hj Hx Hy.
  - by rewrite lookup_nil in Hi.
  - assert (Hin : forall k u, l !! k = Some u -> g u = Some v ->
                    v ∈ omap g l).
    { intros k u Hk Hu. apply list_elem_of_omap. exists u.
      split; [|done]. by apply list_elem_of_lookup_2 in Hk. }
    assert (Hnd' : NoDup (omap g l)).
    { cbn [omap list_omap] in Hnd. destruct (g z); [|done].
      by apply NoDup_cons in Hnd as [_ ?]. }
    destruct i as [|i], j as [|j]; cbn [lookup list_lookup] in Hi, Hj.
    + done.
    + exfalso. injection Hi as ->. cbn [omap list_omap] in Hnd.
      rewrite Hx in Hnd. apply NoDup_cons in Hnd as [Hnotin _].
      apply Hnotin. by apply (Hin j y).
    + exfalso. injection Hj as ->. cbn [omap list_omap] in Hnd.
      rewrite Hy in Hnd. apply NoDup_cons in Hnd as [Hnotin _].
      apply Hnotin. by apply (Hin i x).
    + f_equal. by apply IH.
Qed.

Lemma invariant_assigned_NoDup w : invariant w -> NoDup (assigned w).
Proof.
  intros Hinv. rewrite (inv_assigned w Hinv).
  apply NoDup_fmap_2; [|apply NoDup_seq].
  intros a b. apply client_name_inj.
Qed.

(** Two sockets were never given the same identity. *)
Lemma invariant_identity_inj w a1 a2 s1 s2 f1 f2 :
  invariant w ->
  sockets w !! a1 = Some s1 -> sockets w !! a2 = Some s2 ->
  ws_onclose s1 = Some f1 -> ws_onclose s2 = Some f2 ->
  env_clientId f1 = env_clientId f2 -> a1 = a2.
Proof.
  intros Hinv H1 H2 Hc1 Hc2 Hid.
  apply (omap_NoDup_lookup identity_of (sockets w) a1 a2 s1 s2
           (env_clientId f1)); try done.
  - by apply invariant_assigned_NoDup.
  - unfold identity_of. by rewrite Hc1.
  - unfold identity_of. by rewrite Hc2, Hid.
Qed.

Lemma invariant_initial : invariant initial.
Proof.
  split; simpl; try done. apply NoDup_nil_2.
Qed.

Lemma invariant_with_effects w effs :
  invariant w -> invariant (with_effects w effs).
Proof. intros [? ? ? ? ? ? ? ?]. by split. Qed.

Lemma invariant_write_socket w addr f :
  (forall s, ws_onclose (f s) = ws_onclose s) ->
  (forall s, ws_onerror (f s) = ws_onerror s) ->
  (forall s, ws_onmessage (f s) = ws_onmessage s \/
             ws_onmessage (f s) = None) ->
  invariant w -> invariant (snd (write_socket addr f w)).
Proof.
  intros Hclose Herror Hmessage [Hk Hu Hs Hm He Hc Hr Ha].
  assert (Hold : forall a s',
            sockets (snd (write_socket addr f w)) !! a = Some s' ->
            exists s, sockets w !! a = Some s /\
                      ws_onclose s' = ws_onclose s /\
                      ws_onerror s' = ws_onerror s /\
                      (ws_onmessage s' = ws_onmessage s \/
                       ws_onmessage s' = None)).
  { intros a s'. rewrite sockets_write_socket. case_decide.
    - destruct (sockets w !! a) as [s|]; simpl; [|done].
      intros [= <-]. exists s. auto.
    - intros H'. exists s'. auto. }
  split; try done.
  - intros id c Hget. destruct (Hs id c Hget) as (s & Hl & Hcl).
    rewrite sockets_write_socket. case_decide; rewrite Hl; simpl; eauto.
    exists (f s). by rewrite Hclose.
  - intros a s' g Hl Hg. destruct (Hold a s' Hl) as (s & Hl' & -> & _ & [E|E]).
    + rewrite E in Hg. by apply (Hm a).
    + by rewrite E in Hg.
  - intros a s' Hl. destruct (Hold a s' Hl) as (s & Hl' & -> & -> & _).
    by apply (He a).
  - intros a s' g Hl Hg. destruct (Hold a s' Hl) as (s & Hl' & E & _).
    rewrite E in Hg. by apply (Hc a s).
  - intros a s' g Hl Hg. destruct (Hold a s' Hl) as (s & Hl' & _ & _ & [E|E]).
    + rewrite E in Hg. by apply (Hr a s).
    + by rewrite E in Hg.
  - by rewrite assigned_write_socket.
Qed.

(** Forgetting a client whose socket no longer listens. *)
Lemma invariant_delete w clientId addr s f :
  invariant w ->
  sockets w !! addr = Some s -> ws_onclose s = Some f ->
  ws_onmessage s = None -> env_clientId f = clientId ->
  invariant (snd (write_clients (JsMap.delete clientId (clients w)) w)).
Proof.
  intros Hinv Hl Hclose Hmsg Hid. pose proof Hinv as [Hk Hu Hs Hm He Hc Hr Ha].
  split; simpl; try done.
  - by apply NoDup_keys_delete.
  - by apply Forall_delete.
  - intros id c Hget. apply get_delete_Some in Hget as [_ Hget]. eauto.
  - intros a s' g Hl' Hg. destruct (Hr a s' g Hl' Hg) as [c Hget].
    exists c. rewrite get_delete_ne; [done|]. intros Heq.
    assert (addr = a) as ->.
    { apply (invariant_identity_inj w addr a s s' f g); try done.
      - by apply (Hm a).
      - congruence. }
    rewrite Hl in Hl'. injection Hl' as <-. by rewrite Hmsg in Hg.
Qed.

Lemma onCloseHandler_world clientId clientWs w :
  onCloseHandler clientId clientWs w =
  (Normal tt,
   mkWorld (JsMap.delete clientId (clients w)) (nextClientId w)
     (sockets (snd (write_socket clientWs (set_onmessage None) w)))
     (trace w)).
Proof. done. Qed.

Lemma invariant_onCloseHandler w addr s f :
  invariant w ->
  sockets w !! addr = Some s -> ws_onclose s = Some f ->
  invariant (snd (onCloseHandler (env_clientId f) (env_clientWs f) w)).
Proof.
  intros Hinv Hl Hclose.
  rewrite (inv_closure w Hinv addr s f Hl Hclose).
  apply (invariant_delete
           (snd (write_socket addr (set_onmessage None) w))
           (env_clientId f) addr (set_onmessage None s) f); try done.
  - apply invariant_write_socket; auto.
  - rewrite sockets_write_socket, decide_True by done. by rewrite Hl.
Qed.

Lemma step_upgrade_accept w u :
  u <> "" ->
  let id := client_name (nextClientId w) in
  let f := mkClosure id (length (sockets w)) in
  step url_query w (Upgrade (Some u)) =
  mkWorld (JsMap.set id (mkClient (length (sockets w)) u) (clients w))
    (S (nextClientId w))
    (sockets w ++ [mkWebSocket None (Some f) (Some f) (Some f)])
    (trace w).
Proof.
  intros Hu. apply String.eqb_neq in Hu.
  unfold step, run, new_socket, connection, bind. simpl. rewrite Hu.
  unfold post_increment, read_clients, write_clients, write_socket. simpl.
  rewrite lookup_snoc, insert_snoc.
  rewrite lookup_snoc, insert_snoc.
  rewrite lookup_snoc, insert_snoc. done.
Qed.

Lemma step_upgrade_reject w req_url :
  req_url = None \/ req_url = Some "" ->
  step url_query w (Upgrade req_url) =
  mkWorld (clients w) (nextClientId w)
    (sockets w ++ [mkWebSocket None None None None]) (trace w).
Proof. by intros [-> | ->]. Qed.

Lemma lookup_snoc_Some {A} (l : list A) (x y : A) (i : nat) :
  (l ++ [x]) !! i = Some y ->
  l !! i = Some y \/ (i = length l /\ y = x).
Proof.
  intros H. apply lookup_app_Some in H as [H|[Hi H]]; [by left|].
  right. apply list_lookup_singleton_Some in H as [Hz H]. split; [lia|done].
Qed.

Lemma invariant_new_socket w :
  invariant w ->
  invariant (mkWorld (clients w) (nextClientId w)
               (sockets w ++ [mkWebSocket None None None None]) (trace w)).
Proof.
  intros [Hk Hu Hs Hm He Hc Hr Ha]. split; simpl; try done.
  - intros id c Hget. destruct (Hs id c Hget) as (s & Hl & Hcl).
    exists s. split; [|done]. by apply lookup_app_l_Some.
  - intros addr s f H.
    apply lookup_snoc_Some in H as [H|[_ ->]]; [by apply (Hm addr)|done].
  - intros addr s H.
    apply lookup_snoc_Some in H as [H|[_ ->]]; [by apply (He addr)|done].
  - intros addr s f H.
    apply lookup_snoc_Some in H as [H|[_ ->]]; [by apply (Hc addr s)|done].
  - intros addr s f H.
    apply lookup_snoc_Some in H as [H|[_ ->]]; [by apply (Hr addr s)|done].
  - unfold assigned in *. simpl. rewrite omap_app, Ha. simpl.
    by rewrite app_nil_r.
Qed.

Lemma invariant_upgrade w req_url :
  invariant w -> invariant (step url_query w (Upgrade req_url)).
Proof.
  intros Hinv.
  destruct req_url as [u|];
    [destruct (decide (u = "")) as [->|Hne]|].
  1, 3: rewrite step_upgrade_reject by auto; by apply invariant_new_socket.
  destruct Hinv as [Hk Hu Hs Hm He Hc Hr Ha].
  rewrite step_upgrade_accept by done.
  split; cbn [clients sockets nextClientId trace].
  - by apply NoDup_keys_set.
  - by apply Forall_set.
  - intros id c.
    destruct (decide (client_name (nextClientId w) = id)) as [<-|Hid].
    + rewrite get_set_eq. intros [= <-]. simpl. eexists.
      split; [apply lookup_snoc|done].
    + rewrite get_set_ne by done. intros Hget.
      destruct (Hs id c Hget) as (s & Hl & Hcl).
      exists s. split; [|done]. by apply lookup_app_l_Some.
  - intros addr s f H.
    apply lookup_snoc_Some in H as [H|[_ ->]]; [by apply (Hm addr)|done].
  - intros addr s H.
    apply lookup_snoc_Some in H as [H|[_ ->]]; [by apply (He addr)|done].
  - intros addr s f H.
    apply lookup_snoc_Some in H as [H|[-> ->]]; [by apply (Hc addr s)|].
    by intros [= <-].
  - intros addr s f H.
    apply lookup_snoc_Some in H as [H|[-> ->]].
    + intros Hf. destruct (Hr addr s f H Hf) as [c Hget].
      destruct (decide (client_name (nextClientId w) = env_clientId f))
        as [<-|Hid].
      * rewrite get_set_eq. eauto.
      * rewrite get_set_ne by done. eauto.
    + intros [= <-]. cbn [env_clientId]. rewrite get_set_eq. eauto.
  - unfold assigned in *. cbn [sockets nextClientId].
    by rewrite omap_app, Ha, seq_S, map_app.
Qed.

Lemma only_effects_parseMessage data binary :
  only_effects (parseMessage data binary).
Proof. unfold parseMessage. effects. Qed.

Lemma only_effects_onmessage clientId clientWs data binary :
  only_effects (onmessage url_query clientId clientWs data binary).
Proof.
  unfold onmessage. apply only_effects_bind.
  - apply only_effects_parseMessage.
  - intros [message|]; [apply only_effects_handle|apply only_effects_emit].
Qed.

Lemma step_message w addr data binary :
  exists effs, step url_query w (MessageEvent addr data binary) =
               with_effects w effs.
Proof.
  unfold step, run, bind, read_socket. simpl.
  destruct (sockets w !! addr ≫= ws_onmessage) as [f|].
  - apply only_effects_onmessage.
  - exists []. simpl. by rewrite with_effects_nil.
Qed.

Lemma step_broadcast w method params :
  exists effs, step url_query w (HostBroadcast method params) =
               with_effects w effs.
Proof. apply only_effects_handleSendBroadcast. Qed.

Lemma invariant_step w ev : invariant w -> invariant (step url_query w ev).
Proof.
  intros Hinv. destruct ev as [req_url|addr data binary|addr|addr|addr e|m p].
  - by apply invariant_upgrade.
  - destruct (step_message w addr data binary) as [effs ->].
    by apply invariant_with_effects.
  - unfold step, run, bind, read_socket. simpl.
    destruct (sockets w !! addr) as [s|] eqn:Hl; simpl; [|done].
    destruct (ws_onclose s) as [f|] eqn:Hf; [|done].
    by apply (invariant_onCloseHandler w addr s).
  - unfold step, run, bind, read_socket. simpl.
    destruct (sockets w !! addr) as [s|] eqn:Hl; simpl; [|done].
    destruct (ws_onerror s) as [f|] eqn:Hf; [|done].
    apply (invariant_onCloseHandler w addr s); [done..|].
    by rewrite <- (inv_onerror w Hinv addr s).
  - apply invariant_write_socket; auto.
  - destruct (step_broadcast w m p) as [effs ->].
    by apply invariant_with_effects.
Qed.

Lemma reachable_invariant w : reachable url_query w -> invariant w.
Proof.
  induction 1 as [|w ev _ IH]; [apply invariant_initial|].
  by apply invariant_step.
Qed.

(** ** Identities *)

Lemma run_close_or_error w addr ev :
  invariant w ->
  ev = CloseEvent addr \/ ev = ErrorEvent addr ->
  run url_query ev w =
  match sockets w !! addr ≫= ws_onclose with
  | Some f => onCloseHandler (env_clientId f) (env_clientWs f) w
  | None => (Normal tt, w)
  end.
Proof.
  intros Hinv [-> | ->]; unfold run, bind, read_socket, ret.
  - by destruct (sockets w !! addr ≫= ws_onclose).
  - destruct (sockets w !! addr) as [s|] eqn:Hl; [|done].
    cbn [mbind option_bind]. rewrite (inv_onerror w Hinv addr s Hl).
    by destruct (ws_onclose s).
Qed.

Lemma onclose_after_onCloseHandler clientId clientWs w addr :
  sockets (snd (onCloseHandler clientId clientWs w)) !! addr ≫= ws_onclose =
  sockets w !! addr ≫= ws_onclose.
Proof.
  rewrite onCloseHandler_world. cbn [snd sockets].
  rewrite sockets_write_socket. case_decide; [|done].
  by destruct (sockets w !! addr).
Qed.

Lemma registered_is_assigned w id :
  invariant w -> id ∈ JsMap.keys (clients w) -> id ∈ assigned w.
Proof.
  intros Hinv Hid.
  destruct (JsMap.get id (clients w)) as [c|] eqn:Hget.
  2:{ by apply get_None_keys in Hget. }
  destruct (inv_socket w Hinv id c Hget) as (s & Hl & Hcl).
  unfold assigned. apply list_elem_of_omap. exists s. split.
  - by apply list_elem_of_lookup_2 in Hl.
  - unfold identity_of. by rewrite Hcl.
Qed.

Lemma next_name_is_fresh w :
  invariant w -> client_name (nextClientId w) ∉ assigned w.
Proof.
  intros Hinv. rewrite (inv_assigned w Hinv). intros Hin.
  apply list_elem_of_fmap in Hin as (k & Hk & Hin).
  apply client_name_inj in Hk. subst k. apply elem_of_seq in Hin. lia.
Qed.

(** No event changes an entry of the registry: it stays as the connection
    callback made it until it is removed. *)
Lemma entry_is_stable w ev id c c' :
  invariant w ->
  JsMap.get id (clients w) = Some c ->
  JsMap.get id (clients (step url_query w ev)) = Some c' ->
  c' = c.
Proof.
  intros Hinv Hget.
  destruct ev as [req_url|addr data binary|addr|addr|addr e|m p].
  - destruct req_url as [u|];
      [destruct (decide (u = "")) as [->|Hne]|].
    1, 3: rewrite step_upgrade_reject by auto; cbn [clients]; congruence.
    rewrite step_upgrade_accept by done. cbn [clients].
    rewrite get_set_ne; [congruence|].
    intros <-. apply (next_name_is_fresh w Hinv).
    apply registered_is_assigned; [done|].
    apply get_Some_elem in Hget. unfold JsMap.keys.
    apply list_elem_of_fmap. by eexists (_, c).
  - destruct (step_message w addr data binary) as [effs ->].
    cbn [with_effects clients]. congruence.
  - unfold step. rewrite (run_close_or_error w addr) by auto.
    destruct (sockets w !! addr ≫= ws_onclose) as [f|]; [|cbn; congruence].
    rewrite onCloseHandler_world. cbn [snd clients].
    intros H. apply get_delete_Some in H as [_ H]. congruence.
  - unfold step. rewrite (run_close_or_error w addr) by auto.
    destruct (sockets w !! addr ≫= ws_onclose) as [f|]; [|cbn; congruence].
    rewrite onCloseHandler_world. cbn [snd clients].
    intros H. apply get_delete_Some in H as [_ H]. congruence.
  - cbn. congruence.
  - destruct (step_broadcast w m p) as [effs ->].
    cbn [with_effects clients]. congruence.
Qed.


Lemma reachable_run_all evs w :
  reachable url_query w -> reachable url_query (run_all url_query evs w).
Proof.
  revert w. induction evs as [|ev evs IH]; intros w Hw; simpl; [done|].
  apply IH. by constructor.
Qed.

Lemma assigned_step_prefix w ev :
  exists more, assigned (step url_query w ev) = assigned w ++ more.
Proof.
  destruct ev as [req_url|addr data binary|addr|addr|addr e|m p].
  - destruct req_url as [u|];
      [destruct (decide (u = "")) as [->|Hne]|].
    + rewrite step_upgrade_reject by auto. exists [].
      unfold assigned. simpl. by rewrite omap_app.
    + rewrite step_upgrade_accept by done. eexists.
      unfold assigned. cbn [sockets]. by rewrite omap_app.
    + rewrite step_upgrade_reject by auto. exists [].
      unfold assigned. simpl. by rewrite omap_app.
  - destruct (step_message w addr data binary) as [effs ->].
    exists []. by rewrite app_nil_r.
  - exists []. rewrite app_nil_r.
    unfold step, run, bind, read_socket. simpl.
    destruct (sockets w !! addr ≫= ws_onclose) as [f|]; [|done].
    rewrite onCloseHandler_world. unfold assigned at 1. cbn [snd sockets].
    by apply (assigned_write_socket w).
  - exists []. rewrite app_nil_r.
    unfold step, run, bind, read_socket. simpl.
    destruct (sockets w !! addr ≫= ws_onerror) as [f|]; [|done].
    rewrite onCloseHandler_world. unfold assigned at 1. cbn [snd sockets].
    by apply (assigned_write_socket w).
  - exists []. rewrite app_nil_r. by apply assigned_write_socket.
  - destruct (step_broadcast w m p) as [effs ->].
    exists []. by rewrite app_nil_r.
Qed.

(** C7.  In every world the relay can be in, the identities given so far
    are, in the order the connections were accepted, [client#0],
    [client#1], ... up to the counter: the i-th accepted connection is
    [client#i].  They are pairwise distinct, every registered identity is
    one of them, and no event takes one back or changes it, a close
    included; the next accepted connection is named after the counter,
    which no earlier connection was, whether still open or closed. *)
Theorem identities_fresh_and_increasing (w : World) :
  reachable url_query w ->
  assigned w = map client_name (seq 0 (nextClientId w)) /\
  (forall i id,
     assigned w !! i = Some id <->
     i < nextClientId w /\ id = "client#" +:+ pretty i) /\
  NoDup (assigned w) /\
  (forall id, id ∈ JsMap.keys (clients w) -> id ∈ assigned w) /\
  (forall ev, exists more,
     assigned (step url_query w ev) = assigned w ++ more) /\
  (forall u, u <> "" ->
     let id := "client#" +:+ pretty (nextClientId w) in
     let w' := step url_query w (Upgrade (Some u)) in
     (id ∉ assigned w) /\
     assigned w' = assigned w ++ [id] /\
     JsMap.get id (clients w') = Some (mkClient (length (sockets w)) u) /\
     nextClientId w' = S (nextClientId w)).
Proof.
  intros Hreach. pose proof (reachable_invariant w Hreach) as Hinv.
  pose proof Hinv as [Hk Hu Hs Hm He Hc Hr Ha].
  split; [done|]. split; [|split; [|split; [|split]]].
  - intros i id. rewrite Ha, list_lookup_fmap.
    destruct (seq 0 (nextClientId w) !! i) as [k|] eqn:E; simpl.
    + apply lookup_seq in E as [-> Hi]. simpl. unfold client_name.
      split; [by intros [= <-]|by intros [_ ->]].
    + split; [done|]. intros [Hi _]. exfalso.
      assert (seq 0 (nextClientId w) !! i = Some (0 + i)) as E'
        by by apply lookup_seq.
      congruence.
  - by apply invariant_assigned_NoDup.
  - intros id Hid. by apply registered_is_assigned.
  - intros ev. apply assigned_step_prefix.
  - intros u Hne id w'. subst id w'. fold (client_name (nextClientId w)).
    rewrite step_upgrade_accept by done. cbn [clients nextClientId].
    split; [|split; [|split]].
    + by apply next_name_is_fresh.
    + unfold assigned. cbn [sockets]. by rewrite omap_app.
    + apply get_set_eq.
    + done.
Qed.

(** ** Removal *)

Lemma onCloseHandler_idempotent clientId clientWs w :
  onCloseHandler clientId clientWs (snd (onCloseHandler clientId clientWs w)) =
  (Normal tt, snd (onCloseHandler clientId clientWs w)).
Proof.
  rewrite !onCloseHandler_world. cbn [snd clients nextClientId trace].
  f_equal. f_equal; [apply delete_delete|].
  unfold write_socket. cbn [snd sockets].
  destruct (sockets w !! clientWs) as [s|] eqn:E; cbn [sockets].
  - rewrite list_lookup_insert_eq by by apply lookup_lt_Some in E.
    by rewrite list_insert_insert_eq.
  - by rewrite E.
Qed.


(** ** What the handlers do, exactly *)

Lemma ws_send_world addr data w :
  ws_send addr data w =
  match fault_of w addr with
  | None => (Normal tt, with_effects w [Sent addr data])
  | Some e => (Throw e, with_effects w [SendThrew addr data e])
  end.
Proof. unfold ws_send. by destruct (fault_of w addr). Qed.

Lemma handleCaughtError_world clientId clientWs props error w :
  handleCaughtError clientId clientWs (VObj props) error w =
  (Normal tt,
   with_effects w
     (if strict_equals (field "id" props) VUndefined then
        [Logged LError (HandlingFailed clientId error (diagnostic props))]
      else
        match fault_of w clientWs with
        | None => [Sent clientWs (error_reply error (field "id" props))]
        | Some e =>
            [SendThrew clientWs (error_reply error (field "id" props)) e;
             Logged LError
               (FailedToReply clientId error (diagnostic props) (toString e))]
        end)).
Proof.
  unfold handleCaughtError, bind, eval. cbn [get].
  destruct (strict_equals (field "id" props) VUndefined); [done|].
  unfold try_catch. rewrite ws_send_world.
  destruct (fault_of w clientWs) as [e|]; [|done].
  unfold logger_error, emit, with_effects. cbn [clients nextClientId sockets trace].
  by rewrite <- app_assoc.
Qed.

Lemma broadcast_one id c data w :
  try_catch (ws_send (ws c) data)
    (fun e => logger_error (FailedToSendBroadcast id (toString e))) w =
  (Normal tt, with_effects w (attempt w data (id, c))).
Proof.
  unfold try_catch. rewrite ws_send_world. unfold attempt. cbn [fst snd].
  destruct (fault_of w (ws c)) as [e|]; [|done].
  unfold logger_error, emit, with_effects.
  cbn [clients nextClientId sockets trace]. by rewrite <- app_assoc.
Qed.

Lemma attempt_with_effects w effs data entry :
  attempt (with_effects w effs) data entry = attempt w data entry.
Proof. done. Qed.

Lemma fan_out_world broadcasterId data cs w effs :
  for_of cs
    (fun entry =>
       if differs (fst entry) broadcasterId then
         try_catch (ws_send (ws (snd entry)) data)
           (fun e =>
              logger_error (FailedToSendBroadcast (fst entry) (toString e)))
       else ret tt)
    (with_effects w effs) =
  (Normal tt,
   with_effects w
     (effs ++ flat_map (attempt w data) (others broadcasterId cs))).
Proof.
  revert effs. induction cs as [|[id c] cs IH]; intros effs.
  - simpl. by rewrite app_nil_r.
  - cbn [for_of]. unfold bind at 1. unfold others. rewrite filter_cons.
    cbn [fst snd].
    destruct (differs id broadcasterId) eqn:Hd.
    + rewrite decide_True by done.
      rewrite broadcast_one, attempt_with_effects, with_effects_app, IH.
      cbn [flat_map]. by rewrite <- !app_assoc.
    + rewrite decide_False by discriminate. apply IH.
Qed.

Lemma handleSendBroadcast_world broadcasterId props w :
  handleSendBroadcast broadcasterId (VObj props) w =
  (Normal tt,
   with_effects w
     ((if Nat.eqb (length (clients w)) 0
       then [Logged LWarn (NoAppsConnected (field "method" props))]
       else []) ++
      flat_map
        (attempt w
           (broadcast_frame (field "method" props) (field "params" props)))
        (others broadcasterId (clients w)))).
Proof.
  unfold handleSendBroadcast, bind, eval, read_clients, JsMap.size.
  cbn [get].
  destruct (Nat.eqb (length (clients w)) 0).
  - apply (fan_out_world broadcasterId _ (clients w) w
             [Logged LWarn (NoAppsConnected (field "method" props))]).
  - pose proof (fan_out_world broadcasterId
                  (broadcast_frame (field "method" props)
                     (field "params" props))
                  (clients w) w []) as H.
    rewrite with_effects_nil in H. apply H.
Qed.

(** ** Broadcasts *)

Lemma send_calls_app a b : send_calls (a ++ b) = send_calls a ++ send_calls b.
Proof. apply omap_app. Qed.

Lemma send_calls_fan_out w data cs :
  send_calls (flat_map (attempt w data) cs) =
  map (fun entry => (ws (snd entry), data)) cs.
Proof.
  induction cs as [|entry cs IH]; [done|].
  cbn [flat_map map]. rewrite send_calls_app, IH. f_equal.
  unfold attempt. by destruct (fault_of w (ws (snd entry))).
Qed.

Lemma fan_out_all_open w data cs :
  (forall entry, entry ∈ cs -> fault_of w (ws (snd entry)) = None) ->
  flat_map (attempt w data) cs =
  map (fun entry => Sent (ws (snd entry)) data) cs.
Proof.
  induction cs as [|entry cs IH]; intros Hopen; [done|].
  cbn [flat_map map]. rewrite IH.
  - unfold attempt. rewrite (Hopen entry); [done|]. apply list_elem_of_here.
  - intros entry' Hin. apply Hopen. by apply list_elem_of_further.
Qed.




Lemma keys_of_broadcast_frame method params k :
  k ∈ keys_of (broadcast_frame method params) ->
  k ∈ ["version"; "method"; "params"].
Proof.
  unfold broadcast_frame, JSON_stringify, keys_of. cbn [serialize].
  apply keys_keep_defined.
Qed.

Lemma decoded_broadcast_frame method params :
  typeof method = "string" ->
  decoded (broadcast_frame method params) "version" =
    Normal (VNum PROTOCOL_VERSION) /\
  decoded (broadcast_frame method params) "method" = Normal method /\
  decoded (broadcast_frame method params) "params" = Normal (serialize params).
Proof.
  destruct method; try discriminate. intros _.
  destruct params; done.
Qed.

Lemma route_broadcast clientId clientWs message w :
  isBroadcast message = Normal true ->
  route url_query clientId clientWs message w =
  handleSendBroadcast (Some clientId) message w.
Proof. intros H. unfold route, bind, eval. by rewrite H. Qed.

Lemma others_spec broadcasterId cs id c :
  (id, c) ∈ others broadcasterId cs <->
  (id, c) ∈ cs /\ Some id <> broadcasterId.
Proof.
  unfold others. rewrite list_elem_of_filter. cbn [fst].
  destruct broadcasterId as [b|]; cbn [differs].
  - rewrite negb_true_iff, String.eqb_neq. split; intros [? ?]; split; auto.
    all: congruence.
  - split; intros [? ?]; split; auto.
Qed.

Lemma registry_sockets_distinct w :
  invariant w -> NoDup (map (fun entry => ws (snd entry)) (clients w)).
Proof.
  intros [Hk Hu Hs Hm He Ha].
  apply (NoDup_fmap_2_strong (fun entry => ws (snd entry))).
  - intros [id1 c1] [id2 c2] H1 H2 Hws. cbn [snd] in Hws.
    apply elem_get_Some in H1; [|done]. apply elem_get_Some in H2; [|done].
    destruct (Hs id1 c1 H1) as (s1 & Hl1 & Hc1).
    destruct (Hs id2 c2 H2) as (s2 & Hl2 & Hc2).
    rewrite Hws in Hl1. rewrite Hl1 in Hl2. injection Hl2 as <-.
    rewrite Hc1 in Hc2. injection Hc2 as <- _.
    rewrite H1 in H2. by injection H2 as <-.
  - by apply NoDup_fmap_1 in Hk.
Qed.

Lemma own_socket_not_among_others w clientId clientWs s :
  invariant w ->
  sockets w !! clientWs = Some s ->
  ws_onmessage s = Some (mkClosure clientId clientWs) ->
  clientWs ∉ map (fun entry => ws (snd entry))
               (others (Some clientId) (clients w)).
Proof.
  intros Hinv Hl Hmsg Hin. pose proof Hinv as [Hk Hu Hs Hm He Ha].
  apply list_elem_of_fmap in Hin as ([id c] & Hws & Hin). cbn [snd] in Hws.
  apply others_spec in Hin as [Hin Hne].
  apply elem_get_Some in Hin; [|done].
  destruct (Hs id c Hin) as (s' & Hl' & Hc').
  rewrite <- Hws, Hl in Hl'. injection Hl' as <-.
  rewrite (Hm _ _ _ Hl Hmsg) in Hc'. injection Hc' as <- _. done.
Qed.

(** A socket that still listens belongs to a registered client. *)
Lemma listening_is_registered w clientId clientWs s :
  invariant w ->
  sockets w !! clientWs = Some s ->
  ws_onmessage s = Some (mkClosure clientId clientWs) ->
  exists u, JsMap.get clientId (clients w) = Some (mkClient clientWs u) /\
            u <> "".
Proof.
  intros Hinv Hl Hmsg. pose proof Hinv as [Hk Hu Hs Hm He Hc Hr Ha].
  destruct (Hr _ _ _ Hl Hmsg) as [[a u] Hget]. cbn [env_clientId] in Hget.
  destruct (Hs _ _ Hget) as (s' & Hl' & Hcl'). cbn [ws] in Hl', Hcl'.
  assert (a = clientWs) as ->.
  { apply (invariant_identity_inj w a clientWs s' s _ _ Hinv Hl' Hl Hcl'
             (Hm _ _ _ Hl Hmsg)). done. }
  exists u. split; [done|].
  apply get_Some_elem in Hget.
  rewrite Forall_forall in Hu. by apply Hu in Hget.
Qed.

Lemma handle_normal clientId clientWs message w w' :
  route url_query clientId clientWs message w = (Normal tt, w') ->
  handle url_query clientId clientWs message w = (Normal tt, w').
Proof. intros H. unfold handle, try_catch. by rewrite H. Qed.

(** C3.  When a connection of a reachable world sends a message that
    classifies as a broadcast, the callback ends normally and calls
    [send] once for each entry of the registry other than the sender's,
    in order, and for nothing else: on as many sockets as there are such
    entries, all different, none of them the sender's own.  The frame is
    made of the version and of the message's [method] and [params], and
    of nothing else of the message or of the sender.  Where no socket is
    broken, the effects are exactly these frames going out. *)
Theorem broadcast_reaches_exactly_the_others (clientId : string)
    (clientWs : nat) (s : WebSocket) (props : list (string * value))
    (w : World) :
  reachable url_query w ->
  sockets w !! clientWs = Some s ->
  ws_onmessage s = Some (mkClosure clientId clientWs) ->
  isBroadcast (VObj props) = Normal true ->
  let peers := others (Some clientId) (clients w) in
  let frame :=
    broadcast_frame (field "method" props) (field "params" props) in
  exists effs,
    handle url_query clientId clientWs (VObj props) w =
      (Normal tt, with_effects w effs) /\
    send_calls effs = map (fun entry => (ws (snd entry), frame)) peers /\
    length (send_calls effs) = length peers /\
    (forall id c, (id, c) ∈ peers <-> (id, c) ∈ clients w /\ id <> clientId) /\
    NoDup (map (fun entry => ws (snd entry)) peers) /\
    (clientWs ∉ map (fun entry => ws (snd entry)) peers) /\
    (forall k, k ∈ keys_of frame -> k ∈ ["version"; "method"; "params"]) /\
    decoded frame "version" = Normal (VNum PROTOCOL_VERSION) /\
    decoded frame "method" = Normal (field "method" props) /\
    decoded frame "params" = Normal (serialize (field "params" props)) /\
    ((forall entry, entry ∈ peers -> fault_of w (ws (snd entry)) = None) ->
     effs = map (fun entry => Sent (ws (snd entry)) frame) peers).
Proof.
  intros Hreach Hl Hmsg Hb peers frame.
  pose proof (reachable_invariant w Hreach) as Hinv.
  destruct (listening_is_registered w clientId clientWs s Hinv Hl Hmsg)
    as (u & Hget & _).
  assert (Hlen : Nat.eqb (length (clients w)) 0 = false).
  { destruct (clients w); [done|done]. }
  assert (Hstring : typeof (field "method" props) = "string").
  { unfold isBroadcast, and_then, typeof_is, cbind in Hb. cbn [get] in Hb.
    destruct (String.eqb (typeof (field "method" props)) "string") eqn:E;
      [|discriminate].
    by apply String.eqb_eq in E. }
  exists (flat_map (attempt w frame) peers).
  split; [|split; [|split; [|split; [|split; [|split; [|split]]]]]].
  - apply handle_normal. rewrite route_broadcast by done.
    rewrite handleSendBroadcast_world, Hlen. done.
  - apply send_calls_fan_out.
  - by rewrite send_calls_fan_out, length_map.
  - intros id c. unfold peers. rewrite others_spec.
    split; intros [? ?]; split; auto; congruence.
  - unfold peers, others.
    pose proof (registry_sockets_distinct w Hinv) as Hnd.
    revert Hnd. generalize (clients w). intros cs.
    induction cs as [|entry cs IH]; [done|].
    cbn [map]. intros Hnd. apply NoDup_cons in Hnd as [Hnotin Hnd].
    rewrite filter_cons. case_decide; [|auto].
    cbn [map]. apply NoDup_cons. split; [|auto].
    intros Hin. apply Hnotin.
    apply list_elem_of_fmap in Hin as (entry' & -> & Hin).
    apply list_elem_of_filter in Hin as [_ Hin].
    apply list_elem_of_fmap. by exists entry'.
  - by apply (own_socket_not_among_others w clientId clientWs s).
  - apply keys_of_broadcast_frame.
  - destruct (decoded_broadcast_frame (field "method" props)
                (field "params" props) Hstring) as (H1 & H2 & H3).
    split; [done|]. split; [done|]. split; [done|].
    apply fan_out_all_open.
Qed.


(** ** Classification *)

Lemma isBroadcast_object props :
  isBroadcast (VObj props) =
  Normal (String.eqb (typeof (field "method" props)) "string" &&
          strict_equals (field "id" props) VUndefined &&
          strict_equals (field "target" props) VUndefined).
Proof.
  unfold isBroadcast, and_then, typeof_is, is_undefined, cbind. cbn [get].
  destruct (String.eqb (typeof (field "method" props)) "string"); [|done].
  by destruct (strict_equals (field "id" props) VUndefined).
Qed.

Lemma isRequest_object props :
  isRequest (VObj props) =
  Normal (String.eqb (typeof (field "method" props)) "string" &&
          String.eqb (typeof (field "target" props)) "string").
Proof.
  unfold isRequest, and_then, typeof_is, cbind. cbn [get].
  by destruct (String.eqb (typeof (field "method" props)) "string").
Qed.

Lemma typeof_string v : typeof v = "string" <-> exists s, v = VStr s.
Proof.
  split; [|by intros [s ->]]. destruct v; try discriminate. eauto.
Qed.

Lemma typeof_string_defined v :
  typeof v = "string" -> strict_equals v VUndefined = false.
Proof. by destruct v. Qed.

(** C2.  The [try] block asks [isBroadcast], then [isRequest], then
    [isResponse], and the first that answers true decides: the message
    goes to [handleSendBroadcast], to [handleServerRequest] or
    [forwardRequest], to [forwardResponse]; when all three answer false
    the block throws.  A message whose [method] and [target] are both
    strings is no broadcast, is a request, and is routed as a request,
    whatever else it carries: an [id] shaped like a response's together
    with a [result] or an [error] changes nothing. *)
Theorem classification_precedence (clientId : string) (clientWs : nat)
    (message : value) (w : World) :
  let as_request :=
    (let* target := eval (get message "target") in
     if strict_equals target (VStr "server")
     then handleServerRequest url_query clientId clientWs message
     else forwardRequest clientId message) in
  (isBroadcast message = Normal true ->
   route url_query clientId clientWs message w =
   handleSendBroadcast (Some clientId) message w) /\
  (isBroadcast message = Normal false ->
   isRequest message = Normal true ->
   route url_query clientId clientWs message w = as_request w) /\
  (isBroadcast message = Normal false ->
   isRequest message = Normal false ->
   isResponse message = Normal true ->
   route url_query clientId clientWs message w = forwardResponse message w) /\
  (isBroadcast message = Normal false ->
   isRequest message = Normal false ->
   isResponse message = Normal false ->
   route url_query clientId clientWs message w =
   (Throw (Error "Invalid message, did not match the protocol"), w)) /\
  (forall props,
     message = VObj props ->
     typeof (field "method" props) = "string" ->
     typeof (field "target" props) = "string" ->
     isBroadcast message = Normal false /\
     isRequest message = Normal true /\
     route url_query clientId clientWs message w = as_request w).
Proof.
  intros as_request. subst as_request.
  split; [|split; [|split; [|split]]].
  - apply route_broadcast.
  - intros Hb Hr. unfold route, bind, eval. by rewrite Hb, Hr.
  - intros Hb Hr Hs. unfold route, bind, eval. by rewrite Hb, Hr, Hs.
  - intros Hb Hr Hs. unfold route, bind, eval. by rewrite Hb, Hr, Hs.
  - intros props -> Hm Ht.
    assert (Hb : isBroadcast (VObj props) = Normal false).
    { rewrite isBroadcast_object. f_equal.
      rewrite (typeof_string_defined _ Ht). apply andb_false_r. }
    assert (Hr : isRequest (VObj props) = Normal true).
    { rewrite isRequest_object, Hm, Ht. done. }
    split; [done|]. split; [done|].
    unfold route, bind, eval. by rewrite Hb, Hr.
Qed.


(** ** Requests and responses *)

Lemma getClientWs_world clientId w :
  getClientWs clientId w =
  match match clientId with
        | VStr k => JsMap.get k (clients w)
        | _ => None
        end with
  | Some client => (Normal (ws client), w)
  | None => (Throw (could_not_find clientId), w)
  end.
Proof.
  unfold getClientWs, bind, read_clients.
  by destruct (match clientId with VStr k => _ | _ => None end).
Qed.

Lemma forwardRequest_world clientId props w :
  forwardRequest clientId (VObj props) w =
  match getClientWs (field "target" props) w with
  | (Normal targetWs, _) => ws_send targetWs (request_frame clientId props) w
  | (Throw e, _) => (Throw e, w)
  end.
Proof.
  unfold forwardRequest, bind, eval. cbn [get].
  rewrite getClientWs_world.
  by destruct (match field "target" props with VStr k => _ | _ => None end).
Qed.

Lemma forwardResponse_world props w :
  typeof (field "id" props) = "object" ->
  forall requester requestId,
    get (field "id" props) "clientId" = Normal requester ->
    get (field "id" props) "requestId" = Normal requestId ->
    forwardResponse (VObj props) w =
    match getClientWs requester w with
    | (Normal requesterWs, _) =>
        ws_send requesterWs (response_frame props requestId) w
    | (Throw e, _) => (Throw e, w)
    end.
Proof.
  intros Hobj requester requestId Hc Hr.
  unfold forwardResponse, bind, eval, get2, cbind. cbn [get].
  assert (truthy (field "id" props) = true) as ->.
  { destruct (field "id" props); try discriminate; done. }
  cbn [negb]. rewrite Hc, Hr, getClientWs_world.
  by destruct (match requester with VStr k => _ | _ => None end).
Qed.

Lemma isResponse_composite props requester requestId :
  typeof (field "id" props) = "object" ->
  get (field "id" props) "clientId" = Normal (VStr requester) ->
  get (field "id" props) "requestId" = Normal requestId ->
  requestId <> VUndefined ->
  field "result" props <> VUndefined \/ field "error" props <> VUndefined ->
  isResponse (VObj props) = Normal true.
Proof.
  intros Hobj Hc Hr Hdef Hre.
  unfold isResponse, and_then, or_else, typeof_is, typeof_is_not,
    is_defined, get2, cbind.
  cbn [get]. rewrite Hobj, Hc, Hr. cbn [String.eqb typeof].
  assert (String.eqb (typeof requestId) "undefined" = false) as ->.
  { destruct requestId; done. }
  cbn [negb].
  destruct (strict_equals (field "result" props) VUndefined) eqn:E1; [|done].
  destruct (strict_equals (field "error" props) VUndefined) eqn:E2; [|done].
  apply strict_equals_undefined in E1, E2. tauto.
Qed.

Lemma decoded_literal props k :
  NoDup (map fst props) ->
  decoded (JSON_stringify (VObj props)) k =
  Normal (if strict_equals (field k props) VUndefined then VUndefined
          else serialize (field k props)).
Proof.
  intros Hnd. unfold decoded, JSON_stringify. cbn [JSON_parse cbind get serialize].
  by rewrite field_keep_defined.
Qed.

Lemma decoded_literal_json props k :
  NoDup (map fst props) ->
  field k props = VUndefined \/ is_json (field k props) = true ->
  decoded (JSON_stringify (VObj props)) k = Normal (field k props).
Proof.
  intros Hnd Hj. rewrite decoded_literal by done.
  destruct (strict_equals (field k props) VUndefined) eqn:E.
  - apply strict_equals_undefined in E. by rewrite E.
  - by rewrite serialize_field.
Qed.

(** The keys of an object literal of the source are distinct. *)
Ltac distinct_keys := by apply (bool_decide_unpack _).

Lemma decoded_request_frame clientId props :
  typeof (field "method" props) = "string" ->
  is_json (field "id" props) = true ->
  decoded (request_frame clientId props) "version" =
    Normal (VNum PROTOCOL_VERSION) /\
  decoded (request_frame clientId props) "method" =
    Normal (field "method" props) /\
  decoded (request_frame clientId props) "id" =
    Normal (VObj [("requestId", field "id" props);
                  ("clientId", VStr clientId)]).
Proof.
  intros Hm Hid. unfold request_frame.
  apply typeof_string in Hm as [m Hm].
  assert (strict_equals (field "id" props) VUndefined = false) as ->.
  { by destruct (field "id" props). }
  split; [|split].
  - by apply decoded_literal_json; [distinct_keys|right].
  - rewrite decoded_literal_json; [done|distinct_keys|].
    right. cbn [field String.eqb Ascii.eqb Bool.eqb]. by rewrite Hm.
  - rewrite decoded_literal_json; [done|distinct_keys|].
    right. cbn. by rewrite Hid.
Qed.

Lemma decoded_response_frame props requestId :
  is_json (VObj props) = true ->
  is_json requestId = true ->
  decoded (response_frame props requestId) "version" =
    Normal (VNum PROTOCOL_VERSION) /\
  decoded (response_frame props requestId) "result" =
    Normal (field "result" props) /\
  decoded (response_frame props requestId) "error" =
    Normal (field "error" props) /\
  decoded (response_frame props requestId) "id" = Normal requestId.
Proof.
  intros Hj Hid. unfold response_frame.
  split; [|split; [|split]].
  - by apply decoded_literal_json; [distinct_keys|right].
  - rewrite decoded_literal_json; [done|distinct_keys|].
    cbn [field String.eqb Ascii.eqb Bool.eqb]. by apply field_json.
  - rewrite decoded_literal_json; [done|distinct_keys|].
    cbn [field String.eqb Ascii.eqb Bool.eqb]. by apply field_json.
  - rewrite decoded_literal_json; [done|distinct_keys|]. by right.
Qed.


Lemma route_request clientId clientWs props target w :
  typeof (field "method" props) = "string" ->
  field "target" props = VStr target ->
  route url_query clientId clientWs (VObj props) w =
  if String.eqb target "server"
  then handleServerRequest url_query clientId clientWs (VObj props) w
  else forwardRequest clientId (VObj props) w.
Proof.
  intros Hm Ht. unfold route, bind, eval.
  rewrite isBroadcast_object, isRequest_object, Hm, Ht.
  cbn [typeof String.eqb Ascii.eqb Bool.eqb strict_equals andb get].
  rewrite andb_false_r, Ht. cbn [strict_equals].
  by destruct (String.eqb target "server").
Qed.

Lemma route_response clientId clientWs props w :
  isRequest (VObj props) = Normal false ->
  field "id" props <> VUndefined ->
  isResponse (VObj props) = Normal true ->
  route url_query clientId clientWs (VObj props) w =
  forwardResponse (VObj props) w.
Proof.
  intros Hr Hid Hs. unfold route, bind, eval.
  rewrite isBroadcast_object, Hr, Hs.
  assert (strict_equals (field "id" props) VUndefined = false) as ->.
  { destruct (strict_equals (field "id" props) VUndefined) eqn:E; [|done].
    by apply strict_equals_undefined in E. }
  by rewrite andb_false_r.
Qed.

Lemma forward_to_registered clientId props target c w :
  field "target" props = VStr target ->
  JsMap.get target (clients w) = Some c ->
  forwardRequest clientId (VObj props) w =
  ws_send (ws c) (request_frame clientId props) w.
Proof.
  intros Ht Hget. by rewrite forwardRequest_world, getClientWs_world, Ht, Hget.
Qed.

(** C1.  A request of [requester] that has an [id] and names a
    registered [target] goes out to the target's socket with the [id]
    replaced by [{requestId: id, clientId: requester}], the method as it
    was.  A response that carries that pair as its [id], with a [result]
    or an [error], from whoever sends it and in whatever world, as long
    as [requester] is registered there, goes out to the requester's
    socket with the [id] the request had, and the [result] and [error] of
    the response.  The record of a listening client names its own
    socket. *)
Theorem round_trip_restores_the_id (requester target : string)
    (request : list (string * value)) :
  is_json (VObj request) = true ->
  typeof (field "method" request) = "string" ->
  field "target" request = VStr target ->
  target <> "server" ->
  field "id" request <> VUndefined ->
  let id := field "id" request in
  let composite := VObj [("requestId", id); ("clientId", VStr requester)] in
  (forall requesterWs w c,
     JsMap.get target (clients w) = Some c ->
     fault_of w (ws c) = None ->
     handle url_query requester requesterWs (VObj request) w =
       (Normal tt,
        with_effects w [Sent (ws c) (request_frame requester request)]) /\
     decoded (request_frame requester request) "method" =
       Normal (field "method" request) /\
     decoded (request_frame requester request) "id" = Normal composite) /\
  (forall responder responderWs response w c,
     is_json (VObj response) = true ->
     typeof (field "id" response) = "object" ->
     get (field "id" response) "requestId" = Normal id ->
     get (field "id" response) "clientId" = Normal (VStr requester) ->
     isRequest (VObj response) = Normal false ->
     field "result" response <> VUndefined \/
     field "error" response <> VUndefined ->
     JsMap.get requester (clients w) = Some c ->
     fault_of w (ws c) = None ->
     handle url_query responder responderWs (VObj response) w =
       (Normal tt, with_effects w [Sent (ws c) (response_frame response id)]) /\
     decoded (response_frame response id) "id" = Normal id /\
     decoded (response_frame response id) "result" =
       Normal (field "result" response) /\
     decoded (response_frame response id) "error" =
       Normal (field "error" response)) /\
  (forall w addr s,
     reachable url_query w ->
     sockets w !! addr = Some s ->
     ws_onmessage s = Some (mkClosure requester addr) ->
     exists u, JsMap.get requester (clients w) = Some (mkClient addr u)).
Proof.
  intros Hjson Hmethod Htarget Hserver Hid id composite.
  assert (Hjid : is_json id = true).
  { destruct (field_json "id" request Hjson); [done|done]. }
  split; [|split].
  - intros requesterWs w c Hget Hopen.
    destruct (decoded_request_frame requester request Hmethod Hjid)
      as (_ & Hdm & Hdi).
    split; [|done].
    apply handle_normal.
    rewrite (route_request _ _ _ target) by done.
    apply String.eqb_neq in Hserver as ->.
    rewrite (forward_to_registered _ _ target c) by done.
    by rewrite ws_send_world, Hopen.
  - intros responder responderWs response w c Hj Hobj Hrid Hcid Hreq Hre
      Hget Hopen.
    destruct (decoded_response_frame response id Hj Hjid)
      as (_ & Hdr & Hde & Hdi).
    split; [|done].
    apply handle_normal.
    assert (field "id" response <> VUndefined) as Hdef.
    { intros E. by rewrite E in Hobj. }
    rewrite route_response; [|done|done|].
    2:{ by apply (isResponse_composite response requester id). }
    rewrite (forwardResponse_world response w Hobj (VStr requester) id)
      by done.
    rewrite getClientWs_world, Hget.
    by rewrite ws_send_world, Hopen.
  - intros w addr s Hreach Hl Hmsg.
    destruct (listening_is_registered w requester addr s) as (u & Hu & _);
      eauto using reachable_invariant.
Qed.


(** ** Failures *)

Lemma parseMessage_object data binary w :
  (exists line,
     parseMessage data binary w =
     (Normal None, with_effects w [Logged LError line])) \/
  (exists props,
     parseMessage data binary w = (Normal (Some (VObj props)), w)).
Proof.
  unfold parseMessage. destruct (truthy binary); [left; by eexists|].
  destruct data as [doc|raw]; [|left; by eexists].
  unfold try_catch, bind, eval. cbn [JSON_parse].
  destruct doc; cbn [get]; try (left; by eexists).
  destruct (strict_equals (field "version" props) (VNum PROTOCOL_VERSION)).
  - right. by eexists.
  - left. by eexists.
Qed.

Lemma handle_returns clientId clientWs props w :
  exists effs,
    handle url_query clientId clientWs (VObj props) w =
    (Normal tt, with_effects w effs).
Proof.
  unfold handle, try_catch.
  destruct (only_effects_route clientId clientWs (VObj props) w)
    as [effs0 H0].
  destruct (route url_query clientId clientWs (VObj props) w)
    as [[[]|e] w1]; cbn [snd] in H0; subst w1.
  - by exists effs0.
  - rewrite handleCaughtError_world, with_effects_app. by eexists.
Qed.

Lemma onmessage_returns clientId clientWs data binary w :
  exists effs,
    onmessage url_query clientId clientWs data binary w =
    (Normal tt, with_effects w effs).
Proof.
  unfold onmessage, bind.
  destruct (parseMessage_object data binary w) as [[line ->]|[props ->]].
  - eexists. unfold logger_error, emit. cbn [with_effects trace clients
      nextClientId sockets]. rewrite <- app_assoc. done.
  - apply handle_returns.
Qed.

(** No event ends with an exception. *)
Lemma run_returns ev w : exists w', run url_query ev w = (Normal tt, w').
Proof.
  destruct ev as [req_url|addr data binary|addr|addr|addr e|m p];
    unfold run, bind, read_socket, new_socket.
  - destruct req_url as [u|]; cbn [connection]; [|by eexists].
    destruct (String.eqb u ""); by eexists.
  - destruct (sockets w !! addr ≫= ws_onmessage) as [f|]; [|by eexists].
    destruct (onmessage_returns (env_clientId f) (env_clientWs f)
                data binary w) as [effs ->]. by eexists.
  - destruct (sockets w !! addr ≫= ws_onclose) as [f|]; by eexists.
  - destruct (sockets w !! addr ≫= ws_onerror) as [f|]; by eexists.
  - by eexists.
  - unfold broadcast. rewrite handleSendBroadcast_world. by eexists.
Qed.

(** C4.  When the [try] block throws [e] on a message, the callback
    still ends normally, with the registry and the sockets as they were.
    If the message has an [id], the callback calls [send] on the
    sender's own socket, once, with [version], [error] (the text of [e])
    and that same [id]; if that call throws too, this is logged and
    nothing else happens.  If the message has no [id], one error line is
    logged and [send] is not called.  No event ends with an
    exception. *)
Theorem failure_is_answered_or_logged (clientId : string) (clientWs : nat)
    (props : list (string * value)) (w w1 : World) (e : JsError) :
  route url_query clientId clientWs (VObj props) w = (Throw e, w1) ->
  let id := field "id" props in
  let reply := error_reply (toString e) id in
  exists effs0 effs,
    w1 = with_effects w effs0 /\
    handle url_query clientId clientWs (VObj props) w =
      (Normal tt, with_effects w1 effs) /\
    clients (with_effects w1 effs) = clients w /\
    sockets (with_effects w1 effs) = sockets w /\
    (id <> VUndefined ->
     send_calls effs = [(clientWs, reply)] /\
     effs =
       match fault_of w clientWs with
       | None => [Sent clientWs reply]
       | Some e' =>
           [SendThrew clientWs reply e';
            Logged LError
              (FailedToReply clientId (toString e) (diagnostic props)
                 (toString e'))]
       end /\
     decoded reply "version" = Normal (VNum PROTOCOL_VERSION) /\
     decoded reply "error" = Normal (VStr (toString e)) /\
     (is_json id = true -> decoded reply "id" = Normal id)) /\
    (id = VUndefined ->
     effs =
       [Logged LError
          (HandlingFailed clientId (toString e) (diagnostic props))] /\
     send_calls effs = []) /\
    (forall ev w0, exists w0', run url_query ev w0 = (Normal tt, w0')).
Proof.
  intros Hroute id reply.
  destruct (only_effects_route clientId clientWs (VObj props) w)
    as [effs0 H0].
  rewrite Hroute in H0. cbn [snd] in H0. subst w1.
  exists effs0. eexists.
  split; [done|]. split.
  { unfold handle, try_catch. rewrite Hroute.
    apply handleCaughtError_world. }
  split; [done|]. split; [done|]. split; [|split].
  - intros Hid.
    assert (strict_equals (field "id" props) VUndefined = false) as ->.
    { destruct (strict_equals (field "id" props) VUndefined) eqn:E; [|done].
      by apply strict_equals_undefined in E. }
    rewrite fault_of_with_effects. split; [|split; [done|]].
    { by destruct (fault_of w clientWs). }
    unfold reply, error_reply. split; [|split].
    + by apply decoded_literal_json; [distinct_keys|right].
    + by apply decoded_literal_json; [distinct_keys|right].
    + intros Hj. apply decoded_literal_json; [distinct_keys|by right].
  - intros Hid. fold id. rewrite Hid. done.
  - apply run_returns.
Qed.


(** ** The server's methods *)

Lemma obj_set_fresh k v props :
  k ∉ map fst props -> obj_set k v props = props ++ [(k, v)].
Proof.
  induction props as [|[k' v'] props IH]; [done|].
  cbn [map fst obj_set]. rewrite not_elem_of_cons. intros [Hne Hnotin].
  apply String.eqb_neq in Hne as ->. by rewrite IH.
Qed.

Lemma peers_fold clientId cs acc :
  NoDup (JsMap.keys cs) ->
  Forall (fun entry => url (snd entry) <> "") cs ->
  (forall k, k ∈ map fst acc -> k ∉ JsMap.keys cs) ->
  fold_left
    (fun peers entry =>
       if negb (String.eqb clientId (fst entry)) &&
          negb (String.eqb (url (snd entry)) "")
       then obj_set (fst entry) (url_query (url (snd entry))) peers
       else peers)
    cs acc =
  acc ++ map (fun entry => (fst entry, url_query (url (snd entry))))
           (others (Some clientId) cs).
Proof.
  unfold JsMap.keys.
  revert acc. induction cs as [|[id c] cs IH]; intros acc Hnd Hurl Hacc.
  - simpl. by rewrite app_nil_r.
  - cbn [map fst] in Hnd, Hacc. apply NoDup_cons in Hnd as [Hnotin Hnd].
    apply Forall_cons in Hurl as [Hu Hurl]. cbn [snd] in Hu.
    cbn [fold_left fst snd]. unfold others. rewrite filter_cons.
    cbn [fst differs]. rewrite (String.eqb_sym clientId id).
    apply String.eqb_neq in Hu as ->. cbn [negb]. rewrite andb_true_r.
    destruct (String.eqb id clientId) eqn:E; cbn [negb].
    + rewrite decide_False by discriminate.
      apply IH; try done.
      intros k Hk Hin. apply (Hacc k Hk). by apply list_elem_of_further.
    + rewrite decide_True by done. cbn [map fst snd].
      rewrite obj_set_fresh.
      2:{ intros Hin. apply (Hacc id Hin). apply list_elem_of_here. }
      rewrite IH; try done.
      * by rewrite <- app_assoc.
      * intros k Hk. rewrite map_app in Hk. cbn [map fst] in Hk.
        apply elem_of_app in Hk as [Hk|Hk].
        -- intros Hin. apply (Hacc k Hk). by apply list_elem_of_further.
        -- apply list_elem_of_singleton in Hk. by subst k.
Qed.

Lemma peers_of_others clientId cs :
  NoDup (JsMap.keys cs) ->
  Forall (fun entry => url (snd entry) <> "") cs ->
  peers_of url_query clientId cs =
  map (fun entry => (fst entry, url_query (url (snd entry))))
    (others (Some clientId) cs).
Proof.
  intros Hnd Hurl. unfold peers_of.
  rewrite (peers_fold clientId cs []); try done.
  intros k Hk. by apply elem_of_nil in Hk.
Qed.

Lemma get_others clientId cs id :
  id <> clientId ->
  JsMap.get id (others (Some clientId) cs) = JsMap.get id cs.
Proof.
  intros Hne. unfold others. cbn [differs].
  induction cs as [|[k c] cs IH]; [done|].
  rewrite filter_cons. cbn [fst JsMap.get].
  destruct (String.eqb k clientId) eqn:E; cbn [negb].
  - rewrite decide_False by discriminate.
    apply String.eqb_eq in E. subst k.
    by apply String.eqb_neq in Hne as ->.
  - rewrite decide_True by done. cbn [JsMap.get]. by rewrite IH.
Qed.

Lemma field_of_get (h : Client -> value) cs id c :
  JsMap.get id cs = Some c ->
  field id (map (fun entry => (fst entry, h (snd entry))) cs) = h c.
Proof.
  induction cs as [|[k c'] cs IH]; [done|].
  cbn [JsMap.get map fst snd field].
  destruct (String.eqb id k); [by intros [= ->]|done].
Qed.

Lemma handleServerRequest_getpeers clientId clientWs props w :
  field "method" props = VStr "getpeers" ->
  handleServerRequest url_query clientId clientWs (VObj props) w =
  ws_send clientWs
    (result_frame (VObj (peers_of url_query clientId (clients w)))
       (field "id" props)) w.
Proof.
  intros Hm. unfold handleServerRequest, bind, eval, read_clients, ret.
  cbn [get]. rewrite Hm. done.
Qed.

(** C6.  In a reachable world, a request to [server] with method
    [getpeers] makes the callback call [send] on the sender's own socket
    with [version], the request's [id], and as [result] an object with
    one property for each entry of the registry other than the sender's,
    in order: its name is the entry's identity, its value the query
    parameters of the URL the entry was registered with.  The sender's
    own identity is not among the names.  No event changes an entry: it
    keeps the URL of its upgrade request for as long as it is there. *)
Theorem getpeers_lists_the_others (clientId : string) (clientWs : nat)
    (props : list (string * value)) (w : World) :
  reachable url_query w ->
  field "method" props = VStr "getpeers" ->
  field "target" props = VStr "server" ->
  let peers :=
    map (fun entry => (fst entry, url_query (url (snd entry))))
      (others (Some clientId) (clients w)) in
  let frame := result_frame (VObj peers) (field "id" props) in
  route url_query clientId clientWs (VObj props) w =
    ws_send clientWs frame w /\
  (fault_of w clientWs = None ->
   handle url_query clientId clientWs (VObj props) w =
   (Normal tt, with_effects w [Sent clientWs frame])) /\
  (forall id,
     id ∈ map fst peers <-> id ∈ JsMap.keys (clients w) /\ id <> clientId) /\
  NoDup (map fst peers) /\
  (forall id c,
     JsMap.get id (clients w) = Some c -> id <> clientId ->
     field id peers = url_query (url c)) /\
  field clientId peers = VUndefined /\
  (forall id c ev c',
     JsMap.get id (clients w) = Some c ->
     JsMap.get id (clients (step url_query w ev)) = Some c' ->
     c' = c).
Proof.
  intros Hreach Hm Ht peers frame.
  pose proof (reachable_invariant w Hreach) as Hinv.
  pose proof Hinv as [Hk Hu Hs Hmsg He Hc Hr Ha].
  assert (Hroute : route url_query clientId clientWs (VObj props) w =
                   ws_send clientWs frame w).
  { rewrite (route_request _ _ _ "server"); [|by rewrite Hm|done].
    cbn [String.eqb Ascii.eqb Bool.eqb].
    rewrite handleServerRequest_getpeers by done.
    by rewrite peers_of_others. }
  assert (Hkeys : forall id,
            id ∈ map fst peers <->
            id ∈ JsMap.keys (clients w) /\ id <> clientId).
  { intros id. unfold peers, JsMap.keys. rewrite map_map. cbn [fst].
    rewrite !list_elem_of_fmap. split.
    - intros ([k c] & -> & Hin). apply others_spec in Hin as [Hin Hne].
      split; [by exists (k, c)|]. cbn [fst]. congruence.
    - intros [([k c] & -> & Hin) Hne]. exists (k, c). split; [done|].
      apply others_spec. split; [done|]. cbn [fst] in Hne. congruence. }
  split; [done|]. split; [|split; [done|split; [|split; [|split]]]].
  - intros Hopen. apply handle_normal.
    by rewrite Hroute, ws_send_world, Hopen.
  - unfold peers. rewrite map_map. cbn [fst].
    unfold others. apply (NoDup_fmap_2_strong fst).
    + intros [k1 c1] [k2 c2] H1 H2 Hk12. cbn [fst] in Hk12. subst k2.
      apply list_elem_of_filter in H1 as [_ H1].
      apply list_elem_of_filter in H2 as [_ H2].
      apply elem_get_Some in H1; [|done]. apply elem_get_Some in H2; [|done].
      congruence.
    + apply NoDup_filter. by apply NoDup_fmap_1 in Hk.
  - intros id c Hget Hne. unfold peers.
    apply (field_of_get (fun c => url_query (url c))).
    by rewrite get_others.
  - apply field_absent. rewrite Hkeys. tauto.
  - intros id c ev c'. by apply entry_is_stable.
Qed.


(** ** Removal, at the level of events *)

(** C8.  In every world the relay can be in, no two entries of the
    registry have the same identity.  A close or an error event on a
    socket ends normally and removes the entry of the socket's client,
    leaving the others; a second close or error event on the same socket,
    in either order, ends normally and changes nothing.
    [onCloseHandler] run twice does what it does run once, in any
    world. *)
Theorem registry_unique_and_removal_idempotent (w : World) :
  reachable url_query w ->
  NoDup (JsMap.keys (clients w)) /\
  (forall id c c', (id, c) ∈ clients w -> (id, c') ∈ clients w -> c = c') /\
  (forall addr first second,
     first = CloseEvent addr \/ first = ErrorEvent addr ->
     second = CloseEvent addr \/ second = ErrorEvent addr ->
     exists w1,
       run url_query first w = (Normal tt, w1) /\
       run url_query second w1 = (Normal tt, w1) /\
       NoDup (JsMap.keys (clients w1)) /\
       forall f,
         sockets w !! addr ≫= ws_onclose = Some f ->
         JsMap.get (env_clientId f) (clients w1) = None /\
         forall id, id <> env_clientId f ->
                    JsMap.get id (clients w1) = JsMap.get id (clients w)) /\
  (forall clientId clientWs w0,
     onCloseHandler clientId clientWs
       (snd (onCloseHandler clientId clientWs w0)) =
     (Normal tt, snd (onCloseHandler clientId clientWs w0))).
Proof.
  intros Hreach. pose proof (reachable_invariant w Hreach) as Hinv.
  split; [apply (inv_keys w Hinv)|]. split; [|split].
  - intros id c c' H1 H2.
    apply elem_get_Some in H1; [|apply (inv_keys w Hinv)].
    apply elem_get_Some in H2; [|apply (inv_keys w Hinv)].
    congruence.
  - intros addr first second Hfirst Hsecond.
    exists (step url_query w first).
    assert (Hinv1 : invariant (step url_query w first))
      by by apply invariant_step.
    split; [|split; [|split]].
    + destruct (run_returns first w) as [w1 Hrun].
      unfold step. by rewrite Hrun.
    + rewrite (run_close_or_error _ addr second Hinv1 Hsecond).
      unfold step. rewrite (run_close_or_error _ addr first Hinv Hfirst).
      destruct (sockets w !! addr ≫= ws_onclose) as [f|] eqn:Hf.
      * rewrite onclose_after_onCloseHandler, Hf.
        apply onCloseHandler_idempotent.
      * cbn [snd]. by rewrite Hf.
    + apply (inv_keys _ Hinv1).
    + intros f Hf. unfold step.
      rewrite (run_close_or_error _ addr first Hinv Hfirst), Hf.
      rewrite onCloseHandler_world. cbn [snd clients].
      split; [apply get_delete_eq|]. intros id Hne.
      by apply get_delete_ne.
  - intros. apply onCloseHandler_idempotent.
Qed.

(** ** Requests without an id *)

Lemma isResponse_without_id props :
  field "id" props = VUndefined -> isResponse (VObj props) = Normal false.
Proof.
  intros Hid. unfold isResponse, and_then, typeof_is, cbind. cbn [get].
  by rewrite Hid.
Qed.

(** C10.  A request without [id] to a registered client other than
    [server] is sent on to that client's socket in a frame that has no
    [id] at all: [JSON.stringify] leaves the [undefined] out, so the
    frame is the one a broadcast of the same method and parameters would
    be, and it is the same whoever the requester is.  A message without
    [id] is never classified as a response; one without a method either
    is answered to nobody: the callback only logs it. *)
Theorem request_without_id_is_forwarded_without_id (clientId : string)
    (clientWs : nat) (props : list (string * value)) (target : string)
    (c : Client) (w : World) :
  typeof (field "method" props) = "string" ->
  field "target" props = VStr target ->
  target <> "server" ->
  field "id" props = VUndefined ->
  JsMap.get target (clients w) = Some c ->
  let frame := request_frame clientId props in
  route url_query clientId clientWs (VObj props) w = ws_send (ws c) frame w /\
  (fault_of w (ws c) = None ->
   handle url_query clientId clientWs (VObj props) w =
   (Normal tt, with_effects w [Sent (ws c) frame])) /\
  frame = broadcast_frame (field "method" props) (field "params" props) /\
  ("id" ∉ keys_of frame) /\
  decoded frame "id" = Normal VUndefined /\
  (forall other, request_frame other props = frame) /\
  (forall reply,
     field "id" reply = VUndefined ->
     isResponse (VObj reply) = Normal false /\
     forall sender senderWs w',
       typeof (field "method" reply) <> "string" ->
       handle url_query sender senderWs (VObj reply) w' =
       (Normal tt,
        with_effects w'
          [Logged LError
             (HandlingFailed sender
                "Error: Invalid message, did not match the protocol"
                (diagnostic reply))])).
Proof.
  intros Hm Ht Hserver Hid Hget frame.
  assert (Hroute : route url_query clientId clientWs (VObj props) w =
                   ws_send (ws c) frame w).
  { rewrite (route_request _ _ _ target) by done.
    apply String.eqb_neq in Hserver as ->.
    by rewrite (forward_to_registered _ _ target c). }
  assert (Hframe : forall other,
            request_frame other props =
            broadcast_frame (field "method" props) (field "params" props)).
  { intros other. unfold request_frame, broadcast_frame, JSON_stringify.
    by rewrite Hid. }
  split; [done|]. split; [|split; [|split; [|split; [|split]]]].
  - intros Hopen. apply handle_normal.
    by rewrite Hroute, ws_send_world, Hopen.
  - apply Hframe.
  - unfold frame. rewrite Hframe. intros Hin.
    apply keys_of_broadcast_frame in Hin.
    rewrite !elem_of_cons, elem_of_nil in Hin.
    destruct Hin as [?|[?|[?|[]]]]; discriminate.
  - unfold frame, request_frame.
    rewrite decoded_literal by distinct_keys.
    cbn [field String.eqb Ascii.eqb Bool.eqb]. by rewrite Hid.
  - intros other. unfold frame. by rewrite !Hframe.
  - intros reply Hrid. split; [by apply isResponse_without_id|].
    intros sender senderWs w' Hnm.
    assert (Hroute' : route url_query sender senderWs (VObj reply) w' =
              (Throw (Error "Invalid message, did not match the protocol"),
               w')).
    { unfold route, bind, eval.
      rewrite isBroadcast_object, isRequest_object, isResponse_without_id
        by done.
      apply String.eqb_neq in Hnm as ->. done. }
    unfold handle, try_catch. rewrite Hroute', handleCaughtError_world, Hrid.
    done.
Qed.


End properties.

(** ** The properties on the sample world *)

Lemma sample_world_reachable : reachable plain_query sample_world.
Proof. apply reachable_run_all, reachable_initial. Qed.

Lemma round_trip_restores_the_id_witness :
  handle plain_query "client#0" 0 (VObj sample_request) sample_world =
    (Normal tt,
     with_effects sample_world
       [Sent 1 (request_frame "client#0" sample_request)]) /\
  decoded (request_frame "client#0" sample_request) "id" =
    Normal (VObj [("requestId", VStr "r1"); ("clientId", VStr "client#0")]) /\
  handle plain_query "client#1" 1 (VObj sample_response) sample_world =
    (Normal tt,
     with_effects sample_world
       [Sent 0 (response_frame sample_response (VStr "r1"))]) /\
  decoded (response_frame sample_response (VStr "r1")) "id" =
    Normal (VStr "r1") /\
  decoded (response_frame sample_response (VStr "r1")) "result" =
    Normal (VNum 42).
Proof.
  destruct (round_trip_restores_the_id plain_query "client#0" "client#1"
              sample_request) as (Hforward & Hrespond & _);
    [reflexivity|reflexivity|reflexivity|discriminate|discriminate|].
  destruct (Hforward 0 sample_world (mkClient 1 "/message?role=app"))
    as (H1 & _ & H2); [reflexivity|reflexivity|].
  destruct (Hrespond "client#1" 1 sample_response sample_world
              (mkClient 0 "/message?role=debugger&name=Chrome"))
    as (H3 & H4 & H5 & _);
    [reflexivity|reflexivity|reflexivity|reflexivity|reflexivity|
     left; discriminate|reflexivity|reflexivity|].
  repeat split; assumption.
Defined.

Lemma classification_precedence_witness :
  isResponse (VObj sample_ambiguous) = Normal true /\
  isBroadcast (VObj sample_ambiguous) = Normal false /\
  isRequest (VObj sample_ambiguous) = Normal true /\
  route plain_query "client#0" 0 (VObj sample_ambiguous) sample_world =
  forwardRequest "client#0" (VObj sample_ambiguous) sample_world.
Proof.
  destruct (classification_precedence plain_query "client#0" 0
              (VObj sample_ambiguous) sample_world) as (_ & _ & _ & _ & H).
  destruct (H sample_ambiguous) as (H1 & H2 & H3);
    [reflexivity|reflexivity|reflexivity|].
  split; [reflexivity|]. split; [exact H1|]. split; [exact H2|exact H3].
Defined.

Lemma broadcast_reaches_exactly_the_others_witness :
  exists effs,
    handle plain_query "client#0" 0 (VObj sample_broadcast) sample_world =
      (Normal tt, with_effects sample_world effs) /\
    send_calls effs =
      [(1, broadcast_frame (VStr "reload") (VObj []));
       (3, broadcast_frame (VStr "reload") (VObj []))].
Proof.
  destruct (broadcast_reaches_exactly_the_others plain_query "client#0" 0
              (mkWebSocket None (Some (mkClosure "client#0" 0))
                 (Some (mkClosure "client#0" 0))
                 (Some (mkClosure "client#0" 0)))
              sample_broadcast sample_world)
    as (effs & H1 & H2 & _);
    [apply sample_world_reachable|reflexivity|reflexivity|reflexivity|].
  exists effs. split; [exact H1|exact H2].
Defined.

Lemma failure_is_answered_or_logged_witness :
  handle plain_query "client#0" 0 (VObj sample_invalid) sample_world =
  (Normal tt,
   with_effects sample_world
     [Sent 0
        (error_reply "Error: Invalid message, did not match the protocol"
           (VStr "x"))]).
Proof.
  destruct (failure_is_answered_or_logged plain_query "client#0" 0
              sample_invalid sample_world sample_world
              (Error "Invalid message, did not match the protocol"))
    as (effs0 & effs & _ & Hhandle & _ & _ & Hid & _); [reflexivity|].
  destruct Hid as (_ & Heffs & _); [discriminate|].
  rewrite Heffs in Hhandle. exact Hhandle.
Defined.

Lemma getpeers_lists_the_others_witness :
  handle plain_query "client#0" 0 (VObj sample_getpeers) sample_world =
  (Normal tt,
   with_effects sample_world
     [Sent 0
        (result_frame
           (VObj [("client#1", VObj [("role", VStr "app")]);
                  ("client#2",
                   VObj [("role", VStr "app"); ("name", VStr "second")])])
           (VStr "p1"))]).
Proof.
  destruct (getpeers_lists_the_others plain_query "client#0" 0
              sample_getpeers sample_world)
    as (_ & Hhandle & _);
    [apply sample_world_reachable|reflexivity|reflexivity|].
  apply Hhandle. reflexivity.
Defined.

Lemma identities_fresh_and_increasing_witness :
  assigned sample_world = ["client#0"; "client#1"; "client#2"] /\
  NoDup (assigned sample_world).
Proof.
  destruct (identities_fresh_and_increasing plain_query sample_world)
    as (H1 & _ & H2 & _); [apply sample_world_reachable|].
  split; [exact H1|exact H2].
Defined.

Lemma registry_unique_and_removal_idempotent_witness :
  NoDup (JsMap.keys (clients sample_world)) /\
  exists w1,
    run plain_query (CloseEvent 1) sample_world = (Normal tt, w1) /\
    run plain_query (ErrorEvent 1) w1 = (Normal tt, w1).
Proof.
  destruct (registry_unique_and_removal_idempotent plain_query sample_world)
    as (H1 & _ & H2 & _); [apply sample_world_reachable|].
  split; [exact H1|].
  destruct (H2 1 (CloseEvent 1) (ErrorEvent 1)) as (w1 & Hfirst & Hsecond & _);
    [by left|by right|].
  exists w1. split; [exact Hfirst|exact Hsecond].
Defined.


Lemma request_without_id_is_forwarded_without_id_witness :
  handle plain_query "client#0" 0 (VObj sample_notification) sample_world =
    (Normal tt,
     with_effects sample_world
       [Sent 1 (request_frame "client#0" sample_notification)]) /\
  "id" ∉ keys_of (request_frame "client#0" sample_notification).
Proof.
  destruct (request_without_id_is_forwarded_without_id plain_query
              "client#0" 0 sample_notification "client#1"
              (mkClient 1 "/message?role=app") sample_world)
    as (_ & Hhandle & _ & Hkeys & _);
    [reflexivity|reflexivity|discriminate|reflexivity|reflexivity|].
  split; [|exact Hkeys]. apply Hhandle. reflexivity.
Defined.

(** ** Sample runs *)

Example sample_registry :
  clients sample_world =
  [("client#0", mkClient 0 "/message?role=debugger&name=Chrome");
   ("client#1", mkClient 1 "/message?role=app");
   ("client#2", mkClient 3 "/message?role=app&name=second")].
Proof. vm_compute. reflexivity. Qed.

Example getid_answers_the_own_identity :
  trace (step plain_query sample_world
           (MessageEvent 1
              (Json (VObj [("version", VNum 2); ("method", VStr "getid");
                           ("target", VStr "server"); ("id", VNum 7)]))
              VUndefined)) =
  [Sent 1 (result_frame (VStr "client#1") (VNum 7))].
Proof. vm_compute. reflexivity. Qed.

Example unknown_method_is_answered :
  trace (step plain_query sample_world
           (MessageEvent 0
              (Json (VObj [("version", VNum 2); ("method", VStr "getall");
                           ("target", VStr "server"); ("id", VNum 7)]))
              VUndefined)) =
  [Sent 0 (error_reply "Error: unknown method: getall" (VNum 7))].
Proof. vm_compute. reflexivity. Qed.

Example missing_target_is_answered :
  trace (step plain_query sample_world
           (MessageEvent 0
              (Json (VObj [("version", VNum 2); ("method", VStr "m");
                           ("target", VStr "client#9"); ("id", VStr "r1")]))
              VUndefined)) =
  [Sent 0 (error_reply (toString (could_not_find (VStr "client#9")))
             (VStr "r1"))].
Proof. vm_compute. reflexivity. Qed.

Example missing_target_without_id_is_logged :
  send_calls
    (trace (step plain_query sample_world
              (MessageEvent 0
                 (Json (VObj [("version", VNum 2); ("method", VStr "m");
                              ("target", VStr "client#9")]))
                 VUndefined))) = [].
Proof. vm_compute. reflexivity. Qed.

Example broken_peer_does_not_stop_the_fan_out :
  trace (run_all plain_query
           [TransportFault 1 (Error "not opened");
            MessageEvent 0 (Json (VObj sample_broadcast)) VUndefined]
           sample_world) =
  [SendThrew 1 (broadcast_frame (VStr "reload") (VObj []))
     (Error "not opened");
   Logged LError (FailedToSendBroadcast "client#1" "Error: not opened");
   Sent 3 (broadcast_frame (VStr "reload") (VObj []))].
Proof. vm_compute. reflexivity. Qed.

Example rejected_frames_are_only_logged :
  trace (run_all plain_query
           [MessageEvent 0 (Json (VObj sample_broadcast)) (VBool true);
            MessageEvent 0 (Malformed "{") VUndefined;
            MessageEvent 0 (Json VNull) VUndefined;
            MessageEvent 0 (Json (VObj [("version", VStr "2");
                                        ("method", VStr "reload")]))
              VUndefined]
           sample_world) =
  [Logged LError ExpectedTextGotBinary;
   Logged LError NotMatchingProtocol;
   Logged LError (FailedToParse (Malformed "{"));
   Logged LError NotMatchingProtocol;
   Logged LError (FailedToParse (Json VNull));
   Logged LError NotMatchingProtocol;
   Logged LError (WrongProtocolVersion (VStr "2"));
   Logged LError NotMatchingProtocol].
Proof. vm_compute. reflexivity. Qed.

Example closed_identity_is_not_given_again :
  JsMap.keys
    (clients (run_all plain_query
                [CloseEvent 1; ErrorEvent 1; Upgrade (Some "/message")]
                sample_world)) =
  ["client#0"; "client#2"; "client#3"].
Proof. vm_compute. reflexivity. Qed.

Example closed_socket_no_longer_listens :
  trace (run_all plain_query
           [CloseEvent 1; MessageEvent 1 (Json (VObj sample_response)) VUndefined]
           sample_world) = [].
Proof. vm_compute. reflexivity. Qed.

(** The debugger asks the first app, which answers with the [id] it was
    given: the debugger gets its own [id] back. *)
Example round_trip_through_the_event_loop :
  let asked :=
    step plain_query sample_world
      (MessageEvent 0 (Json (VObj sample_request)) VUndefined) in
  exists id,
    trace asked = [Sent 1 (request_frame "client#0" sample_request)] /\
    decoded (request_frame "client#0" sample_request) "id" = Normal id /\
    trace (step plain_query asked
             (MessageEvent 1
                (Json (VObj [("version", VNum 2); ("result", VNum 42);
                             ("id", id)]))
                VUndefined)) =
    [Sent 1 (request_frame "client#0" sample_request);
     Sent 0 (Json (VObj [("version", VNum 2); ("result", VNum 42);
                         ("id", VStr "r1")]))].
Proof. eexists. split; [|split]; vm_compute; reflexivity. Qed.

(** * Further properties of the relay and of the middleware *)

Section coverage.

Variable url_query : string -> value.

(** ** Failures, one by one *)

Lemma toString_Error msg : msg <> "" -> toString (Error msg) = "Error: " +:+ msg.
Proof.
  intros Hne. unfold toString, Error. cbn [err_message err_name].
  by apply String.eqb_neq in Hne as ->.
Qed.

Lemma handle_throw clientId clientWs props w e :
  route url_query clientId clientWs (VObj props) w = (Throw e, w) ->
  handle url_query clientId clientWs (VObj props) w =
  (Normal tt, with_effects w (report w clientId clientWs props (toString e))).
Proof.
  intros H. unfold handle, try_catch. rewrite H.
  apply handleCaughtError_world.
Qed.

Lemma report_answers w clientId clientWs props error :
  field "id" props <> VUndefined ->
  fault_of w clientWs = None ->
  report w clientId clientWs props error =
  [Sent clientWs (error_reply error (field "id" props))].
Proof.
  intros Hid Hopen. unfold report. rewrite Hopen.
  destruct (strict_equals (field "id" props) VUndefined) eqn:E; [|done].
  by apply strict_equals_undefined in E.
Qed.

Lemma report_logs w clientId clientWs props error :
  field "id" props = VUndefined ->
  report w clientId clientWs props error =
  [Logged LError (HandlingFailed clientId error (diagnostic props))].
Proof. intros Hid. unfold report. by rewrite Hid. Qed.

Lemma handleServerRequest_world clientId clientWs props w :
  handleServerRequest url_query clientId clientWs (VObj props) w =
  if strict_equals (field "method" props) (VStr "getid") then
    ws_send clientWs (result_frame (VStr clientId) (field "id" props)) w
  else if strict_equals (field "method" props) (VStr "getpeers") then
    ws_send clientWs
      (result_frame (VObj (peers_of url_query clientId (clients w)))
         (field "id" props)) w
  else
    (Throw (Error ("unknown method: " +:+ ToString (field "method" props))), w).
Proof.
  unfold handleServerRequest, bind, eval, read_clients, ret, throw.
  cbn [get].
  destruct (strict_equals (field "method" props) (VStr "getid")); [done|].
  by destruct (strict_equals (field "method" props) (VStr "getpeers")).
Qed.

Lemma registered_name w id c :
  invariant w -> JsMap.get id (clients w) = Some c ->
  exists k, k < nextClientId w /\ id = client_name k.
Proof.
  intros Hinv Hget.
  assert (id ∈ assigned w) as Hin.
  { apply registered_is_assigned; [done|].
    apply get_Some_elem in Hget. unfold JsMap.keys.
    apply list_elem_of_fmap. by eexists (_, c). }
  rewrite (inv_assigned w Hinv) in Hin.
  apply list_elem_of_fmap in Hin as (k & -> & Hk).
  apply elem_of_seq in Hk. exists k. split; [lia|done].
Qed.

Lemma client_name_not_server k : client_name k <> "server".
Proof. unfold client_name. cbv [String.append]. discriminate. Qed.

(** X1.  In a reachable world, a request to [server] with method [getid]
    from a listening socket is answered on that socket with the identity
    the callback captured.  That identity is not [server], and it is the
    one under which the caller can be reached: a request of any client
    that names it as [target] is sent to the caller's socket. *)
Theorem getid_names_the_caller (clientId : string) (clientWs : nat)
    (props : list (string * value)) (w : World) :
  reachable url_query w ->
  listening w clientWs clientId ->
  field "method" props = VStr "getid" ->
  field "target" props = VStr "server" ->
  let frame := result_frame (VStr clientId) (field "id" props) in
  route url_query clientId clientWs (VObj props) w =
    ws_send clientWs frame w /\
  (fault_of w clientWs = None ->
   handle url_query clientId clientWs (VObj props) w =
   (Normal tt, with_effects w [Sent clientWs frame])) /\
  decoded frame "result" = Normal (VStr clientId) /\
  clientId <> "server" /\
  (forall other otherWs request,
     typeof (field "method" request) = "string" ->
     field "target" request = VStr clientId ->
     route url_query other otherWs (VObj request) w =
     ws_send clientWs (request_frame other request) w).
Proof.
  intros Hreach (s & Hl & Hmsg) Hm Ht frame.
  pose proof (reachable_invariant url_query w Hreach) as Hinv.
  destruct (listening_is_registered w clientId clientWs s Hinv Hl Hmsg)
    as (u & Hget & _).
  destruct (registered_name w clientId _ Hinv Hget) as (k & _ & Hk).
  assert (Hserver : clientId <> "server").
  { rewrite Hk. apply client_name_not_server. }
  assert (Hroute : route url_query clientId clientWs (VObj props) w =
                   ws_send clientWs frame w).
  { rewrite (route_request url_query _ _ _ "server"); [|by rewrite Hm|done].
    cbn [String.eqb Ascii.eqb Bool.eqb].
    rewrite handleServerRequest_world, Hm. done. }
  split; [done|]. split; [|split; [|split; [done|]]].
  - intros Hopen. apply handle_normal.
    by rewrite Hroute, ws_send_world, Hopen.
  - unfold frame, result_frame.
    by rewrite decoded_literal by by apply (bool_decide_unpack _).
  - intros other otherWs request Hmethod Htarget.
    rewrite (route_request url_query _ _ _ clientId) by done.
    apply String.eqb_neq in Hserver as ->.
    by rewrite (forward_to_registered _ _ clientId (mkClient clientWs u)).
Qed.

(** X2.  A request to [server] with a method other than [getid] and
    [getpeers] throws before anything is sent, with the method's name in
    the message.  The callback then answers the sender's own socket with
    that error and the request's [id], or only logs it when the request
    has no [id]. *)
Theorem unknown_method_is_refused (clientId : string) (clientWs : nat)
    (props : list (string * value)) (method : string) (w : World) :
  field "method" props = VStr method ->
  field "target" props = VStr "server" ->
  method <> "getid" ->
  method <> "getpeers" ->
  let error := "Error: unknown method: " +:+ method in
  route url_query clientId clientWs (VObj props) w =
    (Throw (Error ("unknown method: " +:+ method)), w) /\
  handle url_query clientId clientWs (VObj props) w =
    (Normal tt, with_effects w (report w clientId clientWs props error)) /\
  (field "id" props <> VUndefined -> fault_of w clientWs = None ->
   report w clientId clientWs props error =
   [Sent clientWs (error_reply error (field "id" props))]) /\
  (field "id" props = VUndefined ->
   report w clientId clientWs props error =
   [Logged LError (HandlingFailed clientId error (diagnostic props))]).
Proof.
  intros Hm Ht Hgetid Hgetpeers error.
  assert (Hroute : route url_query clientId clientWs (VObj props) w =
                   (Throw (Error ("unknown method: " +:+ method)), w)).
  { rewrite (route_request url_query _ _ _ "server"); [|by rewrite Hm|done].
    cbn [String.eqb Ascii.eqb Bool.eqb].
    rewrite handleServerRequest_world, Hm. cbn [strict_equals ToString].
    apply String.eqb_neq in Hgetid as ->.
    by apply String.eqb_neq in Hgetpeers as ->. }
  split; [done|]. split; [|split].
  - rewrite (handle_throw _ _ _ _ _ Hroute). by rewrite toString_Error.
  - by apply report_answers.
  - by apply report_logs.
Qed.

(** X3.  A request that names a target which is not in the registry
    throws before anything is sent: no socket gets the request.  The
    callback answers the sender's own socket with the error, which quotes
    the target, and the request's [id], or only logs it when the request
    has no [id]. *)
Theorem missing_target_is_reported (clientId : string) (clientWs : nat)
    (props : list (string * value)) (target : string) (w : World) :
  typeof (field "method" props) = "string" ->
  field "target" props = VStr target ->
  target <> "server" ->
  JsMap.get target (clients w) = None ->
  let error := toString (could_not_find (VStr target)) in
  route url_query clientId clientWs (VObj props) w =
    (Throw (could_not_find (VStr target)), w) /\
  handle url_query clientId clientWs (VObj props) w =
    (Normal tt, with_effects w (report w clientId clientWs props error)) /\
  error = "Error: could not find id " +:+ quote +:+ target +:+ quote +:+
          " while forwarding request" /\
  (field "id" props <> VUndefined -> fault_of w clientWs = None ->
   report w clientId clientWs props error =
   [Sent clientWs (error_reply error (field "id" props))]) /\
  (field "id" props = VUndefined ->
   report w clientId clientWs props error =
   [Logged LError (HandlingFailed clientId error (diagnostic props))]).
Proof.
  intros Hm Ht Hserver Hget error.
  assert (Hroute : route url_query clientId clientWs (VObj props) w =
                   (Throw (could_not_find (VStr target)), w)).
  { rewrite (route_request url_query _ _ _ target) by done.
    apply String.eqb_neq in Hserver as ->.
    by rewrite forwardRequest_world, getClientWs_world, Ht, Hget. }
  split; [done|]. split; [by apply handle_throw|]. split; [|split].
  - unfold error, could_not_find. rewrite toString_Error; [done|].
    cbv [String.append]. discriminate.
  - by apply report_answers.
  - by apply report_logs.
Qed.

(** X4.  A response whose requester is no longer in the registry is sent
    to nobody.  The callback answers the responder's own socket with the
    error, which quotes the requester, and with the response's [id], the
    pair of request id and requester, as it came. *)
Theorem response_to_departed_requester (responder : string)
    (responderWs : nat) (props : list (string * value))
    (requester : string) (requestId : value) (w : World) :
  isRequest (VObj props) = Normal false ->
  typeof (field "id" props) = "object" ->
  get (field "id" props) "clientId" = Normal (VStr requester) ->
  get (field "id" props) "requestId" = Normal requestId ->
  requestId <> VUndefined ->
  field "result" props <> VUndefined \/ field "error" props <> VUndefined ->
  JsMap.get requester (clients w) = None ->
  let error := toString (could_not_find (VStr requester)) in
  route url_query responder responderWs (VObj props) w =
    (Throw (could_not_find (VStr requester)), w) /\
  handle url_query responder responderWs (VObj props) w =
    (Normal tt,
     with_effects w
       match fault_of w responderWs with
       | None => [Sent responderWs (error_reply error (field "id" props))]
       | Some e =>
           [SendThrew responderWs (error_reply error (field "id" props)) e;
            Logged LError
              (FailedToReply responder error (diagnostic props) (toString e))]
       end).
Proof.
  intros Hreq Hobj Hcid Hrid Hdef Hre Hget error.
  assert (Hid : field "id" props <> VUndefined).
  { intros E. by rewrite E in Hobj. }
  assert (Hroute : route url_query responder responderWs (VObj props) w =
                   (Throw (could_not_find (VStr requester)), w)).
  { rewrite route_response; [|done|done|].
    2:{ by apply (isResponse_composite url_query props requester requestId). }
    rewrite (forwardResponse_world props w Hobj (VStr requester) requestId)
      by done.
    by rewrite getClientWs_world, Hget. }
  split; [done|]. rewrite (handle_throw _ _ _ _ _ Hroute).
  unfold report.
  destruct (strict_equals (field "id" props) VUndefined) eqn:E; [|done].
  by apply strict_equals_undefined in E.
Qed.


(** ** Classification, at its edges *)

Lemma isResponse_object props :
  isResponse (VObj props) =
  match field "id" props with
  | VNull => Throw (TypeError "Cannot read property 'requestId' of null")
  | VObj id =>
      Normal
        (negb (String.eqb (typeof (field "requestId" id)) "undefined") &&
         String.eqb (typeof (field "clientId" id)) "string" &&
         (negb (strict_equals (field "result" props) VUndefined) ||
          negb (strict_equals (field "error" props) VUndefined)))
  | _ => Normal false
  end.
Proof.
  unfold isResponse, and_then, or_else, typeof_is, typeof_is_not,
    is_defined, get2, cbind.
  cbn [get]. destruct (field "id" props) as [ | |b|n|s|items|id]; try done.
  cbn [typeof String.eqb Ascii.eqb Bool.eqb get].
  destruct (String.eqb (typeof (field "requestId" id)) "undefined");
    cbn [negb andb]; [done|].
  destruct (String.eqb (typeof (field "clientId" id)) "string");
    cbn [andb]; [|done].
  by destruct (strict_equals (field "result" props) VUndefined).
Qed.

(** X5.  On a decoded object [isBroadcast] and [isRequest] always answer,
    and [isResponse] throws exactly when the [id] is [null].  A message
    with a [null] id that is no request therefore fails with the
    [TypeError] of the property read, not as an invalid message, and the
    sender is answered with that error and [id: null]. *)
Theorem null_id_is_a_type_error (props : list (string * value)) :
  (exists b, isBroadcast (VObj props) = Normal b) /\
  (exists b, isRequest (VObj props) = Normal b) /\
  ((exists e, isResponse (VObj props) = Throw e) <->
   field "id" props = VNull) /\
  (field "id" props = VNull ->
   isRequest (VObj props) = Normal false ->
   forall clientId clientWs w,
     let e := TypeError "Cannot read property 'requestId' of null" in
     route url_query clientId clientWs (VObj props) w = (Throw e, w) /\
     (fault_of w clientWs = None ->
      handle url_query clientId clientWs (VObj props) w =
      (Normal tt,
       with_effects w [Sent clientWs (error_reply (toString e) VNull)]))).
Proof.
  split; [rewrite isBroadcast_object; eauto|].
  split; [rewrite isRequest_object; eauto|].
  split.
  - rewrite isResponse_object.
    destruct (field "id" props); split; try done; try (intros [e He]; done).
    intros _. eauto.
  - intros Hid Hreq clientId clientWs w e.
    assert (Hroute : route url_query clientId clientWs (VObj props) w =
                     (Throw e, w)).
    { unfold route, bind, eval.
      rewrite isBroadcast_object, Hreq, isResponse_object, Hid.
      cbn [strict_equals]. by rewrite andb_false_r. }
    split; [done|]. intros Hopen.
    rewrite (handle_throw _ _ _ _ _ Hroute).
    rewrite report_answers; [by rewrite Hid|by rewrite Hid|done].
Qed.

(** Only an object passes one of the three tests. *)
Lemma classified_is_object message :
  isBroadcast message = Normal true \/ isRequest message = Normal true \/
  isResponse message = Normal true ->
  exists props, message = VObj props.
Proof.
  destruct message; try (by eauto); intros [H|[H|H]]; discriminate.
Qed.

(** X6.  A message that [isBroadcast] accepts is accepted by neither
    [isRequest] nor [isResponse], so for a broadcast the order of the tests
    plays no part; [isRequest] and [isResponse], however, accept some
    messages both. *)
Theorem broadcast_excludes_the_others (message : value) :
  (isBroadcast message = Normal true ->
   isRequest message = Normal false /\ isResponse message = Normal false) /\
  (isRequest message = Normal true \/ isResponse message = Normal true ->
   isBroadcast message = Normal false) /\
  (exists both,
     isRequest (VObj both) = Normal true /\
     isResponse (VObj both) = Normal true).
Proof.
  split; [|split].
  - intros Hb.
    destruct (classified_is_object message) as [props ->]; [auto|].
    rewrite isBroadcast_object in Hb. injection Hb as Hb.
    apply andb_prop in Hb as [Hb Htarget]. apply andb_prop in Hb as [_ Hid].
    apply strict_equals_undefined in Htarget, Hid.
    split.
    + rewrite isRequest_object, Htarget. cbn. by rewrite andb_false_r.
    + by apply isResponse_without_id.
  - intros H.
    destruct (classified_is_object message) as [props ->]; [tauto|].
    rewrite isBroadcast_object. f_equal.
    destruct H as [H|H].
    + rewrite isRequest_object in H. injection H as H.
      apply andb_prop in H as [_ H]. apply String.eqb_eq in H.
      rewrite (typeof_string_defined _ H). apply andb_false_r.
    + rewrite isResponse_object in H.
      destruct (field "id" props); try discriminate.
      cbn [strict_equals]. by rewrite andb_false_r.
  - exists sample_ambiguous. by split.
Qed.

(** X7.  [forwardResponse] returns at once, doing nothing, when the
    message's [id] is missing or falsy; and a message that [isResponse]
    accepts is an object with a truthy [id], so from the message callback
    that early return is never taken. *)
Theorem forwardResponse_guard :
  (forall props w,
     truthy (field "id" props) = false ->
     forwardResponse (VObj props) w = (Normal tt, w)) /\
  (forall message,
     isResponse message = Normal true ->
     exists props, message = VObj props /\ truthy (field "id" props) = true).
Proof.
  split.
  - intros props w Hfalsy. unfold forwardResponse, bind, eval. cbn [get].
    by rewrite Hfalsy.
  - intros message H. destruct message; try discriminate.
    exists props. split; [done|].
    rewrite isResponse_object in H.
    by destruct (field "id" props).
Qed.


(** ** Where frames go *)

Lemma versioned_literal rest :
  versioned (JSON_stringify (VObj (("version", VNum PROTOCOL_VERSION) :: rest))).
Proof.
  unfold versioned, JSON_stringify. cbn [serialize keep_defined].
  eexists. split; [reflexivity|]. done.
Qed.

Lemma versioned_is_accepted data w :
  versioned data ->
  exists doc, parseMessage data VUndefined w = (Normal (Some doc), w).
Proof.
  intros (props & -> & Hv). exists (VObj props).
  unfold parseMessage, try_catch, bind, eval. cbn [truthy JSON_parse get].
  by rewrite Hv.
Qed.

Lemma sends_within_nil w clientWs : sends_within w clientWs [].
Proof. intros addr data H. by apply elem_of_nil in H. Qed.

Lemma sends_within_app w clientWs a b :
  sends_within w clientWs a -> sends_within w clientWs b ->
  sends_within w clientWs (a ++ b).
Proof.
  intros Ha Hb addr data H. rewrite send_calls_app in H.
  apply elem_of_app in H as [H|H]; auto.
Qed.

Lemma sends_within_logged w clientWs level line :
  sends_within w clientWs [Logged level line].
Proof. intros addr data H. by apply elem_of_nil in H. Qed.

Lemma ws_send_within w clientWs addr data :
  addr = clientWs \/ registered_socket w addr ->
  versioned data ->
  exists r effs,
    ws_send addr data w = (r, with_effects w effs) /\
    sends_within w clientWs effs.
Proof.
  intros Haddr Hdata. rewrite ws_send_world.
  destruct (fault_of w addr) as [e|]; eexists _, _; (split; [done|]);
    intros a d H; apply list_elem_of_singleton in H; by injection H as -> ->.
Qed.

Lemma report_within w clientId clientWs props error :
  sends_within w clientWs (report w clientId clientWs props error).
Proof.
  unfold report.
  destruct (strict_equals (field "id" props) VUndefined);
    [apply sends_within_logged|].
  destruct (fault_of w clientWs) as [e|]; intros a d H;
    cbn in H; apply elem_of_cons in H as [H|H];
    try (by apply elem_of_nil in H);
    injection H as -> ->; (split; [by left|apply versioned_literal]).
Qed.

Lemma registered_by_get w id c :
  JsMap.get id (clients w) = Some c -> registered_socket w (ws c).
Proof. intros H. exists id, c. split; [by apply get_Some_elem|done]. Qed.

Lemma no_effect_within {A} (r : Completion A) w clientWs :
  exists r' effs, (r, w) = (r', with_effects w effs) /\
                  sends_within w clientWs effs.
Proof.
  exists r, []. split; [by rewrite with_effects_nil|apply sends_within_nil].
Qed.

Lemma route_within clientId clientWs props w :
  exists r effs,
    route url_query clientId clientWs (VObj props) w =
      (r, with_effects w effs) /\
    sends_within w clientWs effs.
Proof.
  unfold route, bind, eval.
  rewrite isBroadcast_object, isRequest_object.
  destruct (String.eqb (typeof (field "method" props)) "string" &&
            strict_equals (field "id" props) VUndefined &&
            strict_equals (field "target" props) VUndefined).
  { rewrite handleSendBroadcast_world. eexists _, _. split; [done|].
    apply sends_within_app.
    - destruct (Nat.eqb (length (clients w)) 0);
        [apply sends_within_logged|apply sends_within_nil].
    - intros addr data H. rewrite send_calls_fan_out in H.
      apply list_elem_of_fmap in H as ([id c] & [= -> ->] & Hin).
      apply others_spec in Hin as [Hin _].
      split; [|apply versioned_literal]. right. by exists id, c. }
  destruct (String.eqb (typeof (field "method" props)) "string" &&
            String.eqb (typeof (field "target" props)) "string").
  { cbn [get].
    destruct (strict_equals (field "target" props) (VStr "server")).
    - rewrite handleServerRequest_world.
      destruct (strict_equals (field "method" props) (VStr "getid"));
        [apply ws_send_within; [by left|apply versioned_literal]|].
      destruct (strict_equals (field "method" props) (VStr "getpeers"));
        [apply ws_send_within; [by left|apply versioned_literal]|].
      apply no_effect_within.
    - rewrite forwardRequest_world, getClientWs_world.
      destruct (field "target" props) as [ | | | |k| | ];
        try apply no_effect_within.
      destruct (JsMap.get k (clients w)) as [c|] eqn:Hget;
        [|apply no_effect_within].
      apply ws_send_within; [|apply versioned_literal].
      right. by apply (registered_by_get w k). }
  destruct (isResponse (VObj props)) as [[|]|e]; try apply no_effect_within.
  unfold forwardResponse, bind, eval, get2, cbind. cbn [get].
  destruct (truthy (field "id" props)); cbn [negb];
    [|apply no_effect_within].
  destruct (get (field "id" props) "clientId") as [requester|e];
    [|apply no_effect_within].
  rewrite getClientWs_world.
  destruct requester as [ | | | |k| | ]; try apply no_effect_within.
  destruct (JsMap.get k (clients w)) as [c|] eqn:Hget;
    [|apply no_effect_within].
  destruct (get (field "id" props) "requestId") as [requestId|e];
    [|apply no_effect_within].
  apply ws_send_within; [|apply versioned_literal].
  right. by apply (registered_by_get w k).
Qed.

(** X8.  Whatever frame arrives, the message callback ends normally,
    leaves the registry, the counter and the sockets as they are, and
    calls [send] only on the sender's own socket or on the socket of a
    registered client.  Every frame it sends is a JSON object of version
    2: one that [parseMessage] accepts. *)
Theorem relay_sends_only_to_known_sockets (clientId : string)
    (clientWs : nat) (data : Text) (binary : value) (w : World) :
  exists effs,
    onmessage url_query clientId clientWs data binary w =
      (Normal tt, with_effects w effs) /\
    (forall addr frame,
       (addr, frame) ∈ send_calls effs ->
       (addr = clientWs \/
        exists id c, (id, c) ∈ clients w /\ ws c = addr) /\
       (exists props,
          frame = Json (VObj props) /\
          field "version" props = VNum PROTOCOL_VERSION) /\
       forall w', exists doc,
         parseMessage frame VUndefined w' = (Normal (Some doc), w')).
Proof.
  assert (Hwithin : exists effs,
            onmessage url_query clientId clientWs data binary w =
              (Normal tt, with_effects w effs) /\
            sends_within w clientWs effs).
  { unfold onmessage, bind.
    destruct (parseMessage_object data binary w) as [[line ->]|[props ->]].
    - eexists. split.
      + unfold logger_error, emit.
        cbn [with_effects trace clients nextClientId sockets].
        by rewrite <- app_assoc.
      + apply sends_within_app; apply sends_within_logged.
    - unfold handle, try_catch.
      destruct (route_within clientId clientWs props w)
        as (r & effs0 & -> & Hin0).
      destruct r as [[]|e]; [by exists effs0|].
      rewrite handleCaughtError_world, with_effects_app.
      eexists. split; [done|].
      apply sends_within_app; [done|].
      exact (report_within (with_effects w effs0) clientId clientWs props _). }
  destruct Hwithin as (effs & Hrun & Hwithin). exists effs.
  split; [done|]. intros addr frame Hin.
  destruct (Hwithin addr frame Hin) as [Haddr Hframe].
  split; [done|]. split; [done|].
  intros w'. by apply versioned_is_accepted.
Qed.


(** ** The registry and the sockets that listen *)

Lemma listening_with_effects w effs addr id :
  listening (with_effects w effs) addr id <-> listening w addr id.
Proof. done. Qed.

Lemma listening_new_socket w s0 addr id n cs tr :
  listening w addr id ->
  listening (mkWorld cs n (sockets w ++ [s0]) tr) addr id.
Proof.
  intros (s & Hl & Hm). exists s. split; [|done]. by apply lookup_app_l_Some.
Qed.

Lemma registry_listens_step w ev :
  invariant w ->
  (forall id c, JsMap.get id (clients w) = Some c -> listening w (ws c) id) ->
  forall id c,
    JsMap.get id (clients (step url_query w ev)) = Some c ->
    listening (step url_query w ev) (ws c) id.
Proof.
  intros Hinv Hall id c.
  destruct ev as [req_url|addr data binary|addr|addr|addr e|m p].
  - destruct req_url as [u|];
      [destruct (decide (u = "")) as [->|Hne]|].
    1, 3: rewrite step_upgrade_reject by auto; cbn [clients]; intros Hget;
      by apply listening_new_socket, Hall.
    rewrite step_upgrade_accept by done. cbn [clients].
    destruct (decide (client_name (nextClientId w) = id)) as [<-|Hid].
    + rewrite get_set_eq. intros [= <-]. cbn [ws].
      eexists. split; [apply lookup_snoc|done].
    + rewrite get_set_ne by done. intros Hget.
      by apply listening_new_socket, Hall.
  - destruct (step_message url_query w addr data binary) as [effs ->].
    cbn [with_effects clients]. intros Hget.
    by apply listening_with_effects, Hall.
  - unfold step. rewrite (run_close_or_error url_query w addr) by auto.
    destruct (sockets w !! addr) as [s0|] eqn:Hl0; cbn [mbind option_bind];
      [|by apply Hall].
    destruct (ws_onclose s0) as [f|] eqn:Hf; [|by apply Hall].
    rewrite onCloseHandler_world. cbn [snd clients].
    intros Hget. apply get_delete_Some in Hget as [Hne Hget].
    destruct (Hall id c Hget) as (s & Hl & Hm).
    exists s. split; [|done]. cbn [sockets].
    rewrite sockets_write_socket. case_decide as Hws; [|done].
    exfalso. apply Hne.
    rewrite (inv_closure w Hinv addr s0 f Hl0 Hf) in Hws. subst addr.
    rewrite Hl0 in Hl. injection Hl as ->.
    rewrite (inv_onmessage w Hinv _ _ _ Hl0 Hm) in Hf. by injection Hf as <-.
  - unfold step. rewrite (run_close_or_error url_query w addr) by auto.
    destruct (sockets w !! addr) as [s0|] eqn:Hl0; cbn [mbind option_bind];
      [|by apply Hall].
    destruct (ws_onclose s0) as [f|] eqn:Hf; [|by apply Hall].
    rewrite onCloseHandler_world. cbn [snd clients].
    intros Hget. apply get_delete_Some in Hget as [Hne Hget].
    destruct (Hall id c Hget) as (s & Hl & Hm).
    exists s. split; [|done]. cbn [sockets].
    rewrite sockets_write_socket. case_decide as Hws; [|done].
    exfalso. apply Hne.
    rewrite (inv_closure w Hinv addr s0 f Hl0 Hf) in Hws. subst addr.
    rewrite Hl0 in Hl. injection Hl as ->.
    rewrite (inv_onmessage w Hinv _ _ _ Hl0 Hm) in Hf. by injection Hf as <-.
  - unfold step. cbn [run]. intros Hget.
    change (clients (snd (write_socket addr (set_fault e) w)))
      with (clients w) in Hget.
    destruct (Hall id c Hget) as (s & Hl & Hm).
    unfold listening. rewrite sockets_write_socket.
    case_decide; [|by exists s]. rewrite Hl. cbn.
    exists (set_fault e s). done.
  - destruct (step_broadcast url_query w m p) as [effs ->].
    cbn [with_effects clients]. intros Hget.
    by apply listening_with_effects, Hall.
Qed.

Lemma registry_listens w :
  reachable url_query w ->
  forall id c, JsMap.get id (clients w) = Some c -> listening w (ws c) id.
Proof.
  induction 1 as [|w ev Hreach IH]; [done|].
  apply registry_listens_step; [|done]. by apply reachable_invariant in Hreach.
Qed.

(** X9.  In every world the relay can be in, the registry and the sockets
    that have a message callback correspond one to one: the socket of a
    registered client carries that client's callback, a socket with a
    callback carries the one made for it and its client is registered
    under the socket's address, and no two entries share a socket. *)
Theorem registry_matches_listening_sockets (w : World) :
  reachable url_query w ->
  (forall id c,
     JsMap.get id (clients w) = Some c ->
     listening w (ws c) id /\ url c <> "") /\
  (forall addr s f,
     sockets w !! addr = Some s -> ws_onmessage s = Some f ->
     listening w addr (env_clientId f) /\
     exists u,
       JsMap.get (env_clientId f) (clients w) = Some (mkClient addr u)) /\
  NoDup (map (fun entry => ws (snd entry)) (clients w)).
Proof.
  intros Hreach. pose proof (reachable_invariant url_query w Hreach) as Hinv.
  split; [|split].
  - intros id c Hget. split; [by apply registry_listens|].
    apply get_Some_elem in Hget.
    pose proof (inv_url w Hinv) as Hu. rewrite Forall_forall in Hu.
    by apply Hu in Hget.
  - intros addr s f Hl Hm.
    assert (f = mkClosure (env_clientId f) addr) as Hf.
    { pose proof (inv_closure w Hinv addr s f Hl
                    (inv_onmessage w Hinv addr s f Hl Hm)) as <-.
      by destruct f. }
    assert (listening w addr (env_clientId f)) as Hlistening.
    { exists s. split; [done|]. by rewrite <- Hf. }
    split; [done|]. destruct Hlistening as (s' & Hl' & Hm').
    destruct (listening_is_registered w _ _ _ Hinv Hl' Hm') as (u & Hu & _).
    by exists u.
  - by apply registry_sockets_distinct.
Qed.


(** ** Sockets that do not listen *)

Lemma sockets_step_old w ev addr s :
  sockets w !! addr = Some s ->
  exists s', sockets (step url_query w ev) !! addr = Some s' /\
             (ws_onmessage s' = ws_onmessage s \/ ws_onmessage s' = None) /\
             ws_onclose s' = ws_onclose s /\ ws_onerror s' = ws_onerror s.
Proof.
  intros Hl.
  assert (Hwrite : forall a f w0,
            sockets w0 !! addr = Some s ->
            (forall x, ws_onclose (f x) = ws_onclose x) ->
            (forall x, ws_onerror (f x) = ws_onerror x) ->
            (forall x, ws_onmessage (f x) = ws_onmessage x \/
                       ws_onmessage (f x) = None) ->
            exists s', sockets (snd (write_socket a f w0)) !! addr = Some s' /\
              (ws_onmessage s' = ws_onmessage s \/ ws_onmessage s' = None) /\
              ws_onclose s' = ws_onclose s /\ ws_onerror s' = ws_onerror s).
  { intros a f w0 Hl0 Hc He Hm. rewrite sockets_write_socket.
    case_decide; [|by exists s; auto]. rewrite Hl0. cbn.
    exists (f s). auto. }
  destruct ev as [req_url|a data binary|a|a|a e|m p].
  - destruct req_url as [u|];
      [destruct (decide (u = "")) as [->|Hne]|].
    1, 3: rewrite step_upgrade_reject by auto; cbn [sockets]; exists s;
      split; [by apply lookup_app_l_Some|auto].
    rewrite step_upgrade_accept by done. cbn [sockets]. exists s.
    split; [by apply lookup_app_l_Some|auto].
  - destruct (step_message url_query w a data binary) as [effs ->].
    exists s. auto.
  - unfold step, run, bind, read_socket. cbn beta iota.
    destruct (sockets w !! a ≫= ws_onclose) as [f|]; [|exists s; auto].
    rewrite onCloseHandler_world. cbn [snd sockets]. by apply Hwrite; auto.
  - unfold step, run, bind, read_socket. cbn beta iota.
    destruct (sockets w !! a ≫= ws_onerror) as [f|]; [|exists s; auto].
    rewrite onCloseHandler_world. cbn [snd sockets]. by apply Hwrite; auto.
  - unfold step. cbn [run]. by apply Hwrite; auto.
  - destruct (step_broadcast url_query w m p) as [effs ->].
    exists s. auto.
Qed.

Lemma deaf_step w ev addr : deaf w addr -> deaf (step url_query w ev) addr.
Proof.
  intros (s & Hl & Hm).
  destruct (sockets_step_old w ev addr s Hl) as (s' & Hl' & [E|E] & _);
    exists s'; split; auto; congruence.
Qed.

Lemma deaf_run_all evs w addr :
  deaf w addr -> deaf (run_all url_query evs w) addr.
Proof.
  revert w. induction evs as [|ev evs IH]; intros w Hd; [done|].
  cbn [run_all fold_left]. apply IH. by apply deaf_step.
Qed.

Lemma idle_step w ev addr : idle w addr -> idle (step url_query w ev) addr.
Proof.
  intros (s & Hl & Hm & Hc & He).
  destruct (sockets_step_old w ev addr s Hl) as (s' & Hl' & [E|E] & Hc' & He');
    exists s'; repeat split; auto; congruence.
Qed.

Lemma idle_run_all evs w addr :
  idle w addr -> idle (run_all url_query evs w) addr.
Proof.
  revert w. induction evs as [|ev evs IH]; intros w Hd; [done|].
  cbn [run_all fold_left]. apply IH. by apply idle_step.
Qed.

Lemma deaf_ignores w addr data binary :
  deaf w addr ->
  run url_query (MessageEvent addr data binary) w = (Normal tt, w).
Proof.
  intros (s & Hl & Hm). unfold run, bind, read_socket. rewrite Hl.
  cbn [mbind option_bind]. by rewrite Hm.
Qed.

Lemma close_makes_deaf w addr s ev :
  invariant w ->
  sockets w !! addr = Some s ->
  ev = CloseEvent addr \/ ev = ErrorEvent addr ->
  deaf (step url_query w ev) addr.
Proof.
  intros Hinv Hl Hev. unfold step.
  rewrite (run_close_or_error url_query w addr ev Hinv Hev), Hl.
  cbn [mbind option_bind].
  destruct (ws_onclose s) as [f|] eqn:Hf.
  - rewrite onCloseHandler_world.
    rewrite (inv_closure w Hinv addr s f Hl Hf).
    unfold deaf. cbn [snd sockets]. rewrite sockets_write_socket.
    rewrite decide_True by done. rewrite Hl. cbn. by eexists.
  - exists s. split; [done|].
    destruct (ws_onmessage s) as [g|] eqn:Hg; [|done].
    rewrite (inv_onmessage w Hinv addr s g Hl Hg) in Hf. done.
Qed.

Lemma gone_stays_gone w ev id :
  invariant w -> id ∈ assigned w ->
  JsMap.get id (clients w) = None ->
  JsMap.get id (clients (step url_query w ev)) = None.
Proof.
  intros Hinv Hin Hnone.
  destruct (JsMap.get id (clients (step url_query w ev))) as [c|] eqn:Hget;
    [exfalso|done].
  destruct ev as [req_url|a data binary|a|a|a e|m p].
  - destruct req_url as [u|];
      [destruct (decide (u = "")) as [->|Hne]|].
    1, 3: rewrite step_upgrade_reject in Hget by auto; cbn [clients] in Hget;
      congruence.
    rewrite step_upgrade_accept in Hget by done. cbn [clients] in Hget.
    rewrite get_set_ne in Hget; [congruence|].
    intros <-. by apply (next_name_is_fresh w Hinv).
  - destruct (step_message url_query w a data binary) as [effs E].
    rewrite E in Hget. cbn [with_effects clients] in Hget. congruence.
  - unfold step in Hget.
    rewrite (run_close_or_error url_query w a) in Hget by auto.
    destruct (sockets w !! a ≫= ws_onclose) as [f|];
      [|cbn in Hget; congruence].
    rewrite onCloseHandler_world in Hget. cbn [snd clients] in Hget.
    apply get_delete_Some in Hget as [_ Hget]. congruence.
  - unfold step in Hget.
    rewrite (run_close_or_error url_query w a) in Hget by auto.
    destruct (sockets w !! a ≫= ws_onclose) as [f|];
      [|cbn in Hget; congruence].
    rewrite onCloseHandler_world in Hget. cbn [snd clients] in Hget.
    apply get_delete_Some in Hget as [_ Hget]. congruence.
  - cbn in Hget. congruence.
  - destruct (step_broadcast url_query w m p) as [effs E].
    rewrite E in Hget. cbn [with_effects clients] in Hget. congruence.
Qed.

Lemma gone_stays_gone_run_all evs w id :
  reachable url_query w -> id ∈ assigned w ->
  JsMap.get id (clients w) = None ->
  JsMap.get id (clients (run_all url_query evs w)) = None.
Proof.
  revert w. induction evs as [|ev evs IH]; intros w Hreach Hin Hnone; [done|].
  cbn [run_all fold_left]. apply IH.
  - by constructor.
  - destruct (assigned_step_prefix url_query w ev) as [more ->].
    apply elem_of_app. by left.
  - apply gone_stays_gone; [by apply reachable_invariant in Hreach|done..].
Qed.

(** X10.  After a close or an error event on a socket, whatever events
    follow, a frame that arrives on that socket is not handled: the event
    changes nothing.  The socket never listens again, and the identity it
    had never comes back into the registry. *)
Theorem closed_socket_stays_deaf (w : World) (addr : nat) (s : WebSocket)
    (ev : Event) (evs : list Event) :
  reachable url_query w ->
  sockets w !! addr = Some s ->
  ev = CloseEvent addr \/ ev = ErrorEvent addr ->
  let w' := run_all url_query evs (step url_query w ev) in
  (forall data binary,
     run url_query (MessageEvent addr data binary) w' = (Normal tt, w')) /\
  (forall id, ~ listening w' addr id) /\
  (forall f,
     ws_onclose s = Some f ->
     JsMap.get (env_clientId f) (clients w') = None).
Proof.
  intros Hreach Hl Hev w'.
  pose proof (reachable_invariant url_query w Hreach) as Hinv.
  assert (Hdeaf : deaf w' addr).
  { apply deaf_run_all. by apply (close_makes_deaf w addr s). }
  split; [|split].
  - intros data binary. by apply deaf_ignores.
  - intros id (s1 & Hl1 & Hm1). destruct Hdeaf as (s2 & Hl2 & Hm2).
    congruence.
  - intros f Hf. apply gone_stays_gone_run_all.
    + by constructor.
    + destruct (assigned_step_prefix url_query w ev) as [more ->].
      apply elem_of_app. left. unfold assigned.
      apply list_elem_of_omap. exists s. split.
      * by apply list_elem_of_lookup_2 in Hl.
      * unfold identity_of. by rewrite Hf.
    + unfold step.
      rewrite (run_close_or_error url_query w addr ev Hinv Hev), Hl.
      cbn [mbind option_bind]. rewrite Hf, onCloseHandler_world.
      cbn [snd clients]. apply get_delete_eq.
Qed.

(** X11.  An upgrade request without a URL, or with an empty one, is not
    accepted: the registry, the counter of identities and the trace stay
    as they are, no identity is given, and the socket it brought has no
    handler.  Whatever events follow, a frame, a close or an error on that
    socket changes nothing. *)
Theorem upgrade_without_url_is_ignored (w : World) (req_url : option string)
    (evs : list Event) :
  req_url = None \/ req_url = Some "" ->
  let w1 := step url_query w (Upgrade req_url) in
  let addr := length (sockets w) in
  let w' := run_all url_query evs w1 in
  clients w1 = clients w /\
  nextClientId w1 = nextClientId w /\
  trace w1 = trace w /\
  assigned w1 = assigned w /\
  sockets w1 = sockets w ++ [mkWebSocket None None None None] /\
  (forall ev,
     (exists data binary, ev = MessageEvent addr data binary) \/
     ev = CloseEvent addr \/ ev = ErrorEvent addr ->
     run url_query ev w' = (Normal tt, w')).
Proof.
  intros Hurl w1 addr w'. subst w1 w' addr.
  rewrite step_upgrade_reject by done. cbn [clients nextClientId trace sockets].
  split; [done|]. split; [done|]. split; [done|]. split.
  { unfold assigned. cbn [sockets]. rewrite omap_app. cbn.
    by rewrite app_nil_r. }
  split; [done|].
  assert (Hidle : idle
            (run_all url_query evs
               (mkWorld (clients w) (nextClientId w)
                  (sockets w ++ [mkWebSocket None None None None]) (trace w)))
            (length (sockets w))).
  { apply idle_run_all. eexists. split; [apply lookup_snoc|done]. }
  destruct Hidle as (s & Hl & Hm & Hc & He).
  intros ev [(data & binary & ->)|[-> | ->]];
    unfold run, bind, read_socket; rewrite Hl; cbn [mbind option_bind].
  - by rewrite Hm.
  - by rewrite Hc.
  - by rewrite He.
Qed.


(** ** The host's broadcast, and the size of the registry *)

Lemma others_nobody cs : others None cs = cs.
Proof.
  unfold others. induction cs as [|entry cs IH]; [done|].
  rewrite filter_cons, decide_True by done. by rewrite IH.
Qed.

(** X12.  In every world the relay can be in, the host's [broadcast]
    returns normally, changes nothing but the trace, and calls [send]
    exactly once for every entry of the registry, nobody left out, on
    sockets that are all different, with a frame of the version, the
    method and the parameters; when the host gives no parameters the frame
    has no [params] at all. *)
Theorem host_broadcast_reaches_every_client (method : string)
    (params : value) (w : World) :
  reachable url_query w ->
  let frame := broadcast_frame (VStr method) params in
  exists effs,
    broadcast method params w = (Normal tt, with_effects w effs) /\
    step url_query w (HostBroadcast method params) = with_effects w effs /\
    send_calls effs = map (fun entry => (ws (snd entry), frame)) (clients w) /\
    NoDup (map fst (send_calls effs)) /\
    decoded frame "method" = Normal (VStr method) /\
    decoded frame "params" = Normal (serialize params) /\
    (params = VUndefined -> keys_of frame = ["version"; "method"]).
Proof.
  intros Hreach frame.
  pose proof (reachable_invariant url_query w Hreach) as Hinv.
  assert (Hrun : broadcast method params w =
            (Normal tt,
             with_effects w
               ((if Nat.eqb (length (clients w)) 0
                 then [Logged LWarn (NoAppsConnected (VStr method))]
                 else []) ++ flat_map (attempt w frame) (clients w)))).
  { unfold broadcast. rewrite handleSendBroadcast_world, others_nobody. done. }
  eexists. split; [exact Hrun|]. split.
  { unfold step. cbn [run]. by rewrite Hrun. }
  assert (Hcalls : send_calls
            ((if Nat.eqb (length (clients w)) 0
              then [Logged LWarn (NoAppsConnected (VStr method))]
              else []) ++ flat_map (attempt w frame) (clients w)) =
            map (fun entry => (ws (snd entry), frame)) (clients w)).
  { rewrite send_calls_app, send_calls_fan_out.
    by destruct (Nat.eqb (length (clients w)) 0). }
  split; [done|]. split.
  { rewrite Hcalls, map_map. cbn [fst].
    by apply registry_sockets_distinct. }
  destruct (decoded_broadcast_frame (VStr method) params) as (_ & H2 & H3);
    [done|].
  split; [done|]. split; [done|]. by intros ->.
Qed.

Lemma length_omap_le {A B} (g : A -> option B) (l : list A) :
  length (omap g l) <= length l.
Proof.
  induction l as [|x l IH]; [done|]. cbn [omap list_omap].
  destruct (g x); cbn [length]; fold (omap g l); lia.
Qed.

(** X13.  In every world the relay can be in, every registered identity
    is [client#k] for some [k] below the counter, so none is [server], the
    name of the relay itself as a target; the counter is the number of
    connections accepted so far, and the registry has at most that many
    entries.  *)
Theorem registry_is_bounded_by_the_counter (w : World) :
  reachable url_query w ->
  (forall id c,
     JsMap.get id (clients w) = Some c ->
     id <> "server" /\
     exists k, k < nextClientId w /\ id = "client#" +:+ pretty k) /\
  length (assigned w) = nextClientId w /\
  length (clients w) <= nextClientId w /\
  nextClientId w <= length (sockets w).
Proof.
  intros Hreach. pose proof (reachable_invariant url_query w Hreach) as Hinv.
  assert (Hlen : length (assigned w) = nextClientId w).
  { by rewrite (inv_assigned w Hinv), length_map, length_seq. }
  split; [|split; [done|split]].
  - intros id c Hget.
    destruct (registered_name w id c Hinv Hget) as (k & Hk & ->).
    split; [apply client_name_not_server|by exists k].
  - rewrite <- Hlen.
    replace (length (clients w)) with (length (JsMap.keys (clients w)))
      by apply length_map.
    apply submseteq_length, NoDup_submseteq; [apply (inv_keys w Hinv)|].
    intros id. by apply registered_is_assigned.
  - rewrite <- Hlen. apply length_omap_le.
Qed.


(** ** What is forwarded, and to whom *)

Lemma literal_has_only_its_keys props k :
  NoDup (map fst props) ->
  (k ∈ keys_of (JSON_stringify (VObj props)) -> k ∈ map fst props) /\
  (k ∉ map fst props ->
   decoded (JSON_stringify (VObj props)) k = Normal VUndefined).
Proof.
  intros Hnd. split.
  - unfold JSON_stringify, keys_of. cbn [serialize]. apply keys_keep_defined.
  - intros Hk. rewrite decoded_literal by done.
    by rewrite (field_absent k props Hk).
Qed.

(** X14.  Whatever [forwardRequest] sends is made of [version], [method],
    [params] and [id] and of nothing else of the request: the [target] and
    any further property are not passed on.  Whatever [forwardResponse]
    sends is made of [version], [result], [error] and [id] and of nothing
    else of the response. *)
Theorem forwarding_keeps_four_properties (clientId : string)
    (props : list (string * value)) (w : World) :
  (exists r effs,
     forwardRequest clientId (VObj props) w = (r, with_effects w effs) /\
     forall addr data k,
       (addr, data) ∈ send_calls effs ->
       (k ∈ keys_of data -> k ∈ ["version"; "method"; "params"; "id"]) /\
       (k ∉ ["version"; "method"; "params"; "id"] ->
        decoded data k = Normal VUndefined)) /\
  (exists r effs,
     forwardResponse (VObj props) w = (r, with_effects w effs) /\
     forall addr data k,
       (addr, data) ∈ send_calls effs ->
       (k ∈ keys_of data -> k ∈ ["version"; "result"; "error"; "id"]) /\
       (k ∉ ["version"; "result"; "error"; "id"] ->
        decoded data k = Normal VUndefined)).
Proof.
  assert (Hnone : forall (r : Completion unit) (P : Text -> string -> Prop),
            exists r' effs,
              (r, w) = (r', with_effects w effs) /\
              forall addr data k,
                (addr, data) ∈ send_calls effs -> P data k).
  { intros r P. exists r, []. split; [by rewrite with_effects_nil|].
    intros addr data k H. by apply elem_of_nil in H. }
  assert (Hsend : forall a frame (P : Text -> string -> Prop),
            (forall k, P frame k) ->
            exists r effs,
              ws_send a frame w = (r, with_effects w effs) /\
              forall addr data k,
                (addr, data) ∈ send_calls effs -> P data k).
  { intros a frame P HP. rewrite ws_send_world.
    destruct (fault_of w a) as [e|]; eexists _, _; (split; [done|]);
      intros addr data k H; apply list_elem_of_singleton in H;
      injection H as -> ->; apply HP. }
  split.
  - rewrite forwardRequest_world, getClientWs_world.
    destruct (match field "target" props with
              | VStr k => JsMap.get k (clients w)
              | _ => None
              end) as [c|]; [|apply Hnone].
    apply Hsend. intros k. unfold request_frame.
    apply literal_has_only_its_keys. by apply (bool_decide_unpack _).
  - unfold forwardResponse, bind, eval, get2, cbind. cbn [get].
    destruct (truthy (field "id" props)); cbn [negb]; [|apply Hnone].
    destruct (get (field "id" props) "clientId") as [requester|e];
      [|apply Hnone].
    rewrite getClientWs_world.
    destruct (match requester with
              | VStr k => JsMap.get k (clients w)
              | _ => None
              end) as [c|]; [|apply Hnone].
    destruct (get (field "id" props) "requestId") as [requestId|e];
      [|apply Hnone].
    apply Hsend. intros k.
    apply (literal_has_only_its_keys
             [("version", VNum PROTOCOL_VERSION);
              ("result", field "result" props);
              ("error", field "error" props);
              ("id", requestId)]).
    by apply (bool_decide_unpack _).
Qed.



End coverage.

(** ** The open-stack-frame middleware *)

(** X16.  The middleware handles the URL [/open-stack-frame] and no
    other: for any other URL, or none, it calls [next()] once and does
    nothing else; for that URL it never calls [next()], however the call
    ends. *)
Theorem middleware_passes_other_requests_on (watchFolders : list string)
    (req_url : option string) (rawBody : Text) :
  (req_url <> Some "/open-stack-frame" ->
   getOpenStackFrameInEditorMiddleware watchFolders req_url rawBody =
   (Normal tt, [Next])) /\
  (req_url = Some "/open-stack-frame" ->
   Next ∉ snd (getOpenStackFrameInEditorMiddleware watchFolders req_url
                 rawBody)) /\
  (forall file lineNumber folders,
     LaunchEditor file lineNumber folders ∈
       snd (getOpenStackFrameInEditorMiddleware watchFolders req_url rawBody) ->
     req_url = Some "/open-stack-frame" /\ folders = watchFolders).
Proof.
  unfold getOpenStackFrameInEditorMiddleware.
  destruct (bool_decide (req_url = Some "/open-stack-frame")) eqn:E.
  - apply bool_decide_eq_true in E. split; [done|].
    destruct (let! frame := JSON_parse rawBody in
              let! file := get frame "file" in
              let! lineNumber := get frame "lineNumber" in
              Normal [LaunchEditor file lineNumber watchFolders; ResEnd "OK"])
      as [effs|e] eqn:Hbody; cbn [snd].
    + assert (exists file lineNumber,
                effs = [LaunchEditor file lineNumber watchFolders;
                        ResEnd "OK"]) as (file & lineNumber & ->).
      { unfold cbind in Hbody.
        destruct (JSON_parse rawBody) as [frame|]; [|done].
        destruct (get frame "file") as [file|]; [|done].
        destruct (get frame "lineNumber") as [lineNumber|]; [|done].
        injection Hbody as <-. eauto. }
      split.
      * intros _ H. apply elem_of_cons in H as [H|H]; [done|].
        apply list_elem_of_singleton in H. done.
      * intros file' line' folders H.
        apply elem_of_cons in H as [H|H]; [by injection H as _ _ ->|].
        apply list_elem_of_singleton in H. done.
    + split; [intros _ H|intros ? ? ? H]; by apply elem_of_nil in H.
  - apply bool_decide_eq_false in E. split; [done|]. split; [done|].
    cbn [snd]. intros file lineNumber folders H.
    apply list_elem_of_singleton in H. done.
Qed.

(** X17.  On [/open-stack-frame] nothing is checked and nothing is
    caught.  A body that decodes to an object launches the editor once,
    with the object's [file] and [lineNumber] ([undefined] when the object
    has none) and the configured folders, and then ends the response with
    [OK]; a body that decodes to a number, a string, a boolean or an array
    does the same with both [undefined].  A body that is not JSON, or that
    decodes to [null], makes the call throw before the editor is launched
    and without the response being ended.  So the response is ended
    exactly when the call returns normally. *)
Theorem middleware_launches_the_editor_or_throws
    (watchFolders : list string) (rawBody : Text) :
  let result :=
    getOpenStackFrameInEditorMiddleware watchFolders
      (Some "/open-stack-frame") rawBody in
  (forall props,
     rawBody = Json (VObj props) ->
     result =
     (Normal tt,
      [LaunchEditor (field "file" props) (field "lineNumber" props)
         watchFolders;
       ResEnd "OK"])) /\
  (forall frame,
     rawBody = Json frame ->
     frame <> VNull -> frame <> VUndefined ->
     (forall props, frame <> VObj props) ->
     result =
     (Normal tt, [LaunchEditor VUndefined VUndefined watchFolders;
                  ResEnd "OK"])) /\
  ((forall frame, JSON_parse rawBody <> Normal frame) \/
   JSON_parse rawBody = Normal VNull ->
   exists e, result = (Throw e, [])) /\
  (fst result = Normal tt <-> ResEnd "OK" ∈ snd result).
Proof.
  intros result. subst result.
  unfold getOpenStackFrameInEditorMiddleware.
  rewrite bool_decide_eq_true_2 by done.
  split; [|split; [|split]].
  - by intros props ->.
  - intros frame -> Hnull Hundef Hobj.
    destruct frame; try done. by destruct (Hobj props).
  - intros [Hbad|Hnull].
    + destruct rawBody as [doc|raw]; [by destruct (Hbad doc)|].
      by eexists.
    + rewrite Hnull. by eexists.
  - destruct rawBody as [doc|raw]; cbn [JSON_parse cbind].
    + destruct doc; cbn [get cbind fst snd];
        split; try done; intros H;
        try (by apply elem_of_nil in H);
        try (apply elem_of_cons; right; apply list_elem_of_here).
    + split; [done|]. intros H. by apply elem_of_nil in H.
Qed.

(** ** The further properties on the sample world *)

Lemma getid_names_the_caller_witness :
  handle plain_query "client#1" 1 (VObj sample_getid) sample_world =
    (Normal tt,
     with_effects sample_world
       [Sent 1 (result_frame (VStr "client#1") (VStr "g1"))]) /\
  route plain_query "client#0" 0 (VObj sample_request) sample_world =
    ws_send 1 (request_frame "client#0" sample_request) sample_world.
Proof.
  destruct (getid_names_the_caller plain_query "client#1" 1 sample_getid
              sample_world)
    as (_ & Hhandle & _ & _ & Hreach);
    [apply sample_world_reachable
    |exists sample_socket; split; reflexivity
    |reflexivity|reflexivity|].
  split; [apply Hhandle; reflexivity|apply Hreach; reflexivity].
Defined.

Lemma unknown_method_is_refused_witness :
  handle plain_query "client#0" 0 (VObj sample_unknown) sample_world =
  (Normal tt,
   with_effects sample_world
     [Sent 0 (error_reply "Error: unknown method: ping" (VStr "u1"))]).
Proof.
  destruct (unknown_method_is_refused plain_query "client#0" 0
              sample_unknown "ping" sample_world)
    as (_ & Hhandle & _);
    [reflexivity|reflexivity|discriminate|discriminate|].
  exact Hhandle.
Defined.

Lemma missing_target_is_reported_witness :
  handle plain_query "client#0" 0 (VObj sample_lost) sample_world =
  (Normal tt,
   with_effects sample_world
     [Sent 0
        (error_reply (toString (could_not_find (VStr "client#9")))
           (VStr "r2"))]).
Proof.
  destruct (missing_target_is_reported plain_query "client#0" 0 sample_lost
              "client#9" sample_world)
    as (_ & Hhandle & _);
    [reflexivity|reflexivity|discriminate|reflexivity|].
  exact Hhandle.
Defined.

Lemma response_to_departed_requester_witness :
  handle plain_query "client#1" 1 (VObj sample_late) sample_world =
  (Normal tt,
   with_effects sample_world
     [Sent 1
        (error_reply (toString (could_not_find (VStr "client#9")))
           (VObj [("requestId", VStr "r1");
                  ("clientId", VStr "client#9")]))]).
Proof.
  destruct (response_to_departed_requester plain_query "client#1" 1
              sample_late "client#9" (VStr "r1") sample_world)
    as (_ & Hhandle);
    [reflexivity|reflexivity|reflexivity|reflexivity|discriminate
    |left; discriminate|reflexivity|].
  exact Hhandle.
Defined.

Lemma registry_matches_listening_sockets_witness :
  listening sample_world 3 "client#2" /\
  NoDup (map (fun entry => ws (snd entry)) (clients sample_world)).
Proof.
  destruct (registry_matches_listening_sockets plain_query sample_world)
    as (Hregistered & _ & Hsockets); [apply sample_world_reachable|].
  destruct (Hregistered "client#2"
              (mkClient 3 "/message?role=app&name=second"))
    as (Hlistening & _); [reflexivity|].
  split; [exact Hlistening|exact Hsockets].
Defined.

Lemma closed_socket_stays_deaf_witness :
  let w' :=
    run_all plain_query [Upgrade (Some "/message?role=app")]
      (step plain_query sample_world (CloseEvent 1)) in
  run plain_query
    (MessageEvent 1 (Json (VObj sample_broadcast)) (VBool false)) w' =
    (Normal tt, w') /\
  JsMap.get "client#1" (clients w') = None.
Proof.
  destruct (closed_socket_stays_deaf plain_query sample_world 1
              sample_socket (CloseEvent 1)
              [Upgrade (Some "/message?role=app")])
    as (Hdeaf & _ & Hgone);
    [apply sample_world_reachable|reflexivity|by left|].
  split; [apply Hdeaf|].
  apply (Hgone (mkClosure "client#1" 1)). reflexivity.
Defined.

Lemma upgrade_without_url_is_ignored_witness :
  clients (step plain_query sample_world (Upgrade (Some ""))) =
    clients sample_world /\
  assigned (step plain_query sample_world (Upgrade (Some ""))) =
    assigned sample_world.
Proof.
  destruct (upgrade_without_url_is_ignored plain_query sample_world
              (Some "") [])
    as (Hclients & _ & _ & Hassigned & _); [by right|].
  split; [exact Hclients|exact Hassigned].
Defined.

Lemma host_broadcast_reaches_every_client_witness :
  exists effs,
    broadcast "reload" VUndefined sample_world =
      (Normal tt, with_effects sample_world effs) /\
    send_calls effs =
      [(0, broadcast_frame (VStr "reload") VUndefined);
       (1, broadcast_frame (VStr "reload") VUndefined);
       (3, broadcast_frame (VStr "reload") VUndefined)] /\
    keys_of (broadcast_frame (VStr "reload") VUndefined) =
      ["version"; "method"].
Proof.
  destruct (host_broadcast_reaches_every_client plain_query "reload"
              VUndefined sample_world)
    as (effs & Hbroadcast & _ & Hsends & _ & _ & _ & Hkeys);
    [apply sample_world_reachable|].
  exists effs. split; [exact Hbroadcast|].
  split; [exact Hsends|]. apply Hkeys. reflexivity.
Defined.

Lemma registry_is_bounded_by_the_counter_witness :
  length (assigned sample_world) = nextClientId sample_world /\
  length (clients sample_world) <= nextClientId sample_world /\
  nextClientId sample_world <= length (sockets sample_world).
Proof.
  destruct (registry_is_bounded_by_the_counter plain_query sample_world)
    as (_ & Hassigned & Hclients & Hsockets);
    [apply sample_world_reachable|].
  split; [exact Hassigned|]. split; [exact Hclients|exact Hsockets].
Defined.


Lemma middleware_launches_the_editor_or_throws_witness :
  getOpenStackFrameInEditorMiddleware ["/app"] (Some "/open-stack-frame")
    sample_frame =
  (Normal tt,
   [LaunchEditor (VStr "/app/index.js") (VNum 12) ["/app"]; ResEnd "OK"]).
Proof.
  destruct (middleware_launches_the_editor_or_throws ["/app"] sample_frame)
    as (Hobject & _).
  apply (Hobject [("file", VStr "/app/index.js"); ("lineNumber", VNum 12)]).
  reflexivity.
Defined.
